(** * Genode.IoC: the dependency-injection container [Gx::Context]

    A shallow embedding of [include/Genode/Context.hpp].

    The header has two halves, and so has this development:

    - the compile-time half ([namespace priv]): the probe of a class's
      constructors with conversion placeholders, the recursion
      [GetConstructorParameterCount] over the number of placeholders, and
      the trait [Constructible];
    - the run-time half ([class Context]): the two storage maps, [Provide],
      [Require] in its pointer and reference forms, [As], [BuildParameters],
      the cloning constructor behind [CreateScope], and the destructor.

    Templates are instantiated per type; here a type is a [TypeKey] and what
    the compiler knows about it is looked up in an environment. *)

From Stdlib Require Import String.
From stdpp Require Import gmap strings list fin_maps.

(** ** Types as the container sees them *)

(** [std::type_index]: the key of both storage maps. *)
Definition TypeKey := nat.

(** Addresses of heap objects; a handle is identified by its address. *)
Definition addr := nat.

(** An element of [ConstructorDescriptor<T>]: [BuildParameter] only looks at
    whether it is a pointer type ([std::is_pointer_v]). *)
Inductive Param : Type :=
| PPtr (U : TypeKey)      (* U*  : resolved with the pointer form of Require *)
| PRef (U : TypeKey).     (* U   : resolved with the reference form of Require *)

Definition param_type (p : Param) : TypeKey :=
  match p with PPtr U => U | PRef U => U end.

(** What the compiler knows about a class [T]:
    - [std::is_abstract_v<T>] and [std::is_default_constructible_v<T>];
    - [probe a]: the expression [T(c_op<T,0>{}, ..., c_op<T,a-1>{})] is
      well-formed, which is the condition of the
      [GetConstructorParameterCount(int)] overload;
    - [recorded N]: the type read back from [loophole(tag<T, N>{})]. *)
Record TypeInfo : Type := {
  is_abstract : bool;
  is_default_constructible : bool;
  probe : nat → bool;
  recorded : nat → Param;
}.

(** ** namespace priv *)

Module priv.

Definition MaxParameterCount : nat := 100.

(** [GetConstructorParameterCount<T, Ns...>(0)] with [n = sizeof...(Ns)].
    The [(int)] overload is an exact match and wins whenever its return type
    is well-formed; otherwise the [(...)] overload recurses with one more
    placeholder while [n < MaxParameterCount]. The third overload takes a
    [std::integral_constant] and is never viable for the argument [0].
    [depth] bounds the template recursion; [count_depth_irrelevant] shows
    that [MaxParameterCount] levels are always enough. *)
Fixpoint GetConstructorParameterCount_at (probe : nat → bool) (depth n : nat) : nat :=
  if probe n then n
  else if n <? MaxParameterCount then
    match depth with
    | S d => GetConstructorParameterCount_at probe d (S n)
    | O => n
    end
  else n.

Definition GetConstructorParameterCount (ti : TypeInfo) : nat :=
  GetConstructorParameterCount_at (probe ti) MaxParameterCount 0.

(** [loophole_tuple<T, make_integer_sequence<int, count>>::type]. *)
Definition ConstructorDescriptor (ti : TypeInfo) : list Param :=
  map (recorded ti) (seq 0 (GetConstructorParameterCount ti)).

(** [Constructible<T>::value]. *)
Definition Constructible (ti : TypeInfo) : bool :=
  negb (is_abstract ti) &&
  (is_default_constructible ti || (GetConstructorParameterCount ti <? MaxParameterCount)).

(** *** Overload resolution against placeholders

    A class described by the parameter lists of its user-declared
    constructors. A placeholder [c_op<T, N>] converts to [U*] and to [U&]
    for every [U] other than [T] itself (the [enable_if] of [fn_def]), so a
    constructor is viable for [a] placeholders when it has [a] parameters,
    none of type [T]; the copy and move constructors are never viable. The
    construction is well-formed when exactly one constructor is viable: none
    is no match, and two or more are ambiguous, since every placeholder
    conversion is a user-defined conversion of the same rank. *)
Definition viable (self : TypeKey) (a : nat) (ctor : list Param) : bool :=
  (length ctor =? a) && forallb (λ p, negb (param_type p =? self)) ctor.

Definition probe_of_ctors (self : TypeKey) (ctors : list (list Param)) (a : nat) : bool :=
  length (filter (λ c, viable self a c = true) ctors) =? 1.

(** The constructor the probe settles on, and the class as the compiler
    sees it. The side channel is taken to record, for placeholder [N], the
    [N]-th parameter of that constructor. *)
Definition selected_ctor (self : TypeKey) (abstract : bool) (ctors : list (list Param)) : list Param :=
  let a := GetConstructorParameterCount_at
             (λ a, negb abstract && probe_of_ctors self ctors a) MaxParameterCount 0 in
  default [] (head (filter (λ c, viable self a c = true) ctors)).

Definition class_info (self : TypeKey) (abstract : bool) (ctors : list (list Param)) : TypeInfo :=
  {| is_abstract := abstract;
     is_default_constructible := negb abstract && probe_of_ctors self ctors 0;
     probe := λ a, negb abstract && probe_of_ctors self ctors a;
     recorded := λ N, default (PRef self) (selected_ctor self abstract ctors !! N) |}.

End priv.

(** ** class Context: data *)

Inductive Scope : Type := Local | Singleton.

(** An argument handed to a constructor: a pointer (possibly null) or a
    reference. *)
Inductive Arg : Type :=
| APtr (p : option addr)
| ARef (a : addr).

(** A heap object: its dynamic type and the arguments it was built from. *)
Record Object : Type := { obj_type : TypeKey; obj_args : list Arg }.

(** The body of a caller-supplied [Builder<T>], a
    [std::function<std::unique_ptr<T>(Context&)>]: it may call the public
    interface of the context it is handed, and ends by returning a null
    pointer, returning a freshly made object, or throwing. *)
Inductive Prog : Type :=
| Return_null
| Return_new (dynamic : TypeKey) (args : list Arg)
| Raise (what : string)
| Call_Require_ptr (U : TypeKey) (k : option addr → Prog)
| Call_Require_ref (U : TypeKey) (k : addr → Prog)
| Call_Provide_default (U : TypeKey) (scope : Scope) (k : Prog)
| Call_Provide (U : TypeKey) (builder : Prog) (scope : Scope) (k : Prog).

(** [Builder<T>]: the closure made by [As<T>()], or one the caller wrote. *)
Inductive Builder : Type :=
| As
| Closure (body : Prog).

(** [Instance<T>]: [Handle] is a [std::unique_ptr<T>], [None] when null. *)
Record Instance : Type := { Handle : option addr; Instance_Scope : Scope }.

(** [Factory<T>]. *)
Record Factory : Type := { Factory_Builder : Builder; Factory_Scope : Scope }.

(** [Context]. The member [m_parent] is written by the cloning constructor
    and never read, so it is left out. *)
Record Context : Type := {
  m_instances : gmap TypeKey Instance;
  m_factories : gmap TypeKey Factory;
}.

(** The free store: [next] is the next address [new] hands out, [objects]
    the objects alive. *)
Record Heap : Type := { next : addr; objects : gmap addr Object }.

(** A record of builder calls, kept beside the program state to state how
    often and in what order builders run. *)
Inductive Event : Type :=
| Invoked (T : TypeKey)
| Returned (T : TypeKey) (r : option addr).

Record State : Type := { ctx : Context; heap : Heap; trace : list Event }.

(** How a call ends: normally; by an exception that propagates out of it;
    with undefined behaviour, an object deleted twice; not at all, because
    the program is rejected at build time; or not within the recursion
    budget. *)
Inductive Result (A : Type) : Type :=
| Ok (a : A) (s : State)
| Throw (what : string) (s : State)
| Undefined
| Ill_formed (message : string)
| OutOfFuel.
Arguments Ok {A} a s.
Arguments Throw {A} what s.
Arguments Undefined {A}.
Arguments Ill_formed {A} message.
Arguments OutOfFuel {A}.

Definition bind {A B : Type} (r : Result A) (k : A → State → Result B) : Result B :=
  match r with
  | Ok a s => k a s
  | Throw w s => Throw w s
  | Undefined => Undefined
  | Ill_formed m => Ill_formed m
  | OutOfFuel => OutOfFuel
  end.

(** What the build fixes: the classes, the names [typeid(T).name()]
    returns, and the order in which the arguments of a call with [n]
    arguments are evaluated, as a list of argument positions. The language
    leaves that order unspecified; it only promises that the evaluations do
    not interleave. *)
Record Env : Type := {
  info : TypeKey → TypeInfo;
  type_name : TypeKey → string;
  arg_order : nat → list nat;
}.

Definition left_to_right (n : nat) : list nat := seq 0 n.
Definition right_to_left (n : nat) : list nat := rev (seq 0 n).

(** The two entry points a builder can re-enter. *)
Record Api : Type := {
  require_ptr : TypeKey → State → Result (option addr);
  provide : TypeKey → Builder → Scope → State → Result unit;
}.

Definition static_assert_message : string :=
  "Use Provide<T>(Builder<T>, Scope) instead for interface or complex constructible type.".

Definition not_provided_message : string :=
  " is not constructible and not provided within the current context.".

(** ** class Context: operations *)

(** [delete]: defined only for an object that is alive. *)
Definition delete (a : addr) (h : Heap) : option Heap :=
  match objects h !! a with
  | Some _ => Some {| next := next h; objects := base.delete a (objects h) |}
  | None => None
  end.

(** [~Instance<T>()]: the [Handle], a [std::unique_ptr], deletes what it
    points to unless it is null. *)
Definition Instance_destroy (i : Instance) (h : Heap) : option Heap :=
  match Handle i with
  | Some a => delete a h
  | None => Some h
  end.

Definition set_instance (T : TypeKey) (i : Instance) (s : State) : State :=
  {| ctx := {| m_instances := <[T := i]> (m_instances (ctx s));
               m_factories := m_factories (ctx s) |};
     heap := heap s; trace := trace s |}.

(** [m_instances[type] = std::move(instance)]: the slot takes the new
    instance, and the instance it held before, if any, is destroyed. *)
Definition assign_instance (T : TypeKey) (i : Instance) (s : State) : Result unit :=
  match m_instances (ctx s) !! T with
  | None => Ok tt (set_instance T i s)
  | Some old =>
    match Instance_destroy old (heap s) with
    | Some h => Ok tt {| ctx := ctx (set_instance T i s); heap := h; trace := trace s |}
    | None => Undefined
    end
  end.

Definition set_factory (T : TypeKey) (f : Factory) (s : State) : State :=
  {| ctx := {| m_instances := m_instances (ctx s);
               m_factories := <[T := f]> (m_factories (ctx s)) |};
     heap := heap s; trace := trace s |}.

Definition record (e : Event) (s : State) : State :=
  {| ctx := ctx s; heap := heap s; trace := trace s ++ [e] |}.

(** [std::make_unique]: a fresh address, never handed out before. *)
Definition make_unique (o : Object) (s : State) : addr * State :=
  (next (heap s),
   {| ctx := ctx s;
      heap := {| next := S (next (heap s));
                 objects := <[next (heap s) := o]> (objects (heap s)) |};
      trace := trace s |}).

Section Operations.

Variable E : Env.

Section Body.

(** The container as a builder sees it when it calls back. *)
Variable rec : Api.

(** [Require<T>()] for a non-pointer [T]. *)
Definition Require_ref_with (T : TypeKey) (s : State) : Result addr :=
  bind (require_ptr rec T s) (λ instance s',
    match instance with
    | Some a => Ok a s'
    | None => Throw (type_name E T ++ not_provided_message)%string s'
    end).

(** [Provide<T>(scope)]: of the two [enable_if] overloads, the one for a
    non-constructible [T] is a failing [static_assert]. *)
Definition Provide_default_with (T : TypeKey) (scope : Scope) (s : State) : Result unit :=
  if priv.Constructible (info E T) then provide rec T As scope s
  else Ill_formed static_assert_message.

Definition BuildParameter (p : Param) (s : State) : Result Arg :=
  match p with
  | PPtr U => bind (require_ptr rec U s) (λ h s', Ok (APtr h) s')
  | PRef U => bind (Require_ref_with U s) (λ a s', Ok (ARef a) s')
  end.

(** The arguments of the [std::tuple_cat] call, evaluated one after the
    other in the order [order]; [values] collects position and value. A
    position outside the tuple is no argument. *)
Fixpoint eval_arguments (Tuple : list Param) (order : list nat)
    (values : list (nat * Arg)) (s : State) : Result (list (nat * Arg)) :=
  match order with
  | [] => Ok values s
  | i :: order' =>
    match Tuple !! i with
    | Some p =>
      bind (BuildParameter p s) (λ v s', eval_arguments Tuple order' (values ++ [(i, v)]) s')
    | None => eval_arguments Tuple order' values s
    end
  end.

Definition value_at (values : list (nat * Arg)) (i : nat) : option Arg :=
  snd <$> List.find (λ iv, fst iv =? i) values.

(** [BuildParameters<Tuple>()]: the values concatenated in declared order. *)
Definition BuildParameters (Tuple : list Param) (s : State) : Result (list Arg) :=
  bind (eval_arguments Tuple (arg_order E (length Tuple)) [] s) (λ values s',
    Ok (omap (value_at values) (seq 0 (length Tuple))) s').

(** The closure [As<T>()] returns, applied to the context [s]. *)
Definition As_closure (T : TypeKey) (s : State) : Result (option addr) :=
  bind (BuildParameters (priv.ConstructorDescriptor (info E T)) s) (λ args s',
    let '(a, s'') := make_unique {| obj_type := T; obj_args := args |} s' in
    Ok (Some a) s'').

(** A caller-supplied closure applied to the context [s]. *)
Fixpoint run (p : Prog) (s : State) : Result (option addr) :=
  match p with
  | Return_null => Ok None s
  | Return_new dynamic args =>
    let '(a, s') := make_unique {| obj_type := dynamic; obj_args := args |} s in
    Ok (Some a) s'
  | Raise what => Throw what s
  | Call_Require_ptr U k => bind (require_ptr rec U s) (λ h s', run (k h) s')
  | Call_Require_ref U k => bind (Require_ref_with U s) (λ a s', run (k a) s')
  | Call_Provide_default U scope k =>
    bind (Provide_default_with U scope s) (λ _ s', run k s')
  | Call_Provide U builder scope k =>
    bind (provide rec U (Closure builder) scope s) (λ _ s', run k s')
  end.

(** [factory->Builder( *this )] for the factory of [T]. *)
Definition Invoke (T : TypeKey) (builder : Builder) (s : State) : Result (option addr) :=
  bind (match builder with
        | As => As_closure T (record (Invoked T) s)
        | Closure body => run body (record (Invoked T) s)
        end)
       (λ r s', Ok r (record (Returned T r) s')).

(** [Provide<T>(builder, scope)]. The right-hand side of the assignment to
    [m_instances[type]] is evaluated first, so nothing is stored when the
    builder throws. *)
Definition Provide_body (T : TypeKey) (builder : Builder) (scope : Scope) (s : State)
    : Result unit :=
  bind (Invoke T builder s) (λ r s',
    bind (assign_instance T {| Handle := r; Instance_Scope := scope |} s') (λ _ s'',
      Ok tt (set_factory T {| Factory_Builder := builder; Factory_Scope := scope |} s''))).

(** [Require<T*>()], with [T] the pointee. The builder is called through a
    pointer into [m_factories]; a builder that registers [T] anew while it
    runs destroys the closure it is running in, which this model does not
    follow. *)
Definition Require_ptr_body (T : TypeKey) (s : State) : Result (option addr) :=
  match m_instances (ctx s) !! T with
  | Some instance => Ok (Handle instance) s
  | None =>
    match m_factories (ctx s) !! T with
    | Some factory =>
      bind (Invoke T (Factory_Builder factory) s) (λ r s',
        bind (assign_instance T {| Handle := r; Instance_Scope := Local |} s') (λ _ s'',
          Ok r s''))
    | None =>
      if priv.Constructible (info E T) then
        bind (Provide_default_with T Local s) (λ _ s', require_ptr rec T s')
      else Ok None s
    end
  end.

End Body.

(** Calls nest; [fuel] bounds the nesting depth of [Provide] and [Require]
    calls. A dependency cycle recurses without end in the source and runs
    out of fuel here. *)
Fixpoint api (fuel : nat) : Api :=
  match fuel with
  | O => {| require_ptr := λ _ _, OutOfFuel; provide := λ _ _ _ _, OutOfFuel |}
  | S n => {| require_ptr := Require_ptr_body (api n); provide := Provide_body (api n) |}
  end.

Definition Require_ptr (fuel : nat) : TypeKey → State → Result (option addr) :=
  require_ptr (api fuel).
Definition Require_ref (fuel : nat) : TypeKey → State → Result addr :=
  Require_ref_with (api fuel).
Definition Provide (fuel : nat) : TypeKey → Builder → Scope → State → Result unit :=
  provide (api fuel).
Definition Provide_default (fuel : nat) : TypeKey → Scope → State → Result unit :=
  Provide_default_with (api fuel).

End Operations.

(** *** Scopes *)

(** [Instance<T>::Clone]: the clone's [Handle] is a second
    [std::unique_ptr<T>] made from the raw pointer [Handle.get()]. *)
Definition Instance_Clone (i : Instance) : option Instance :=
  match Instance_Scope i with
  | Local => None
  | Singleton => Some {| Handle := Handle i; Instance_Scope := Instance_Scope i |}
  end.

(** [Factory<T>::Clone]. *)
Definition Factory_Clone (f : Factory) : option Factory :=
  match Factory_Scope f with
  | Singleton => None
  | Local => Some {| Factory_Builder := Factory_Builder f; Factory_Scope := Factory_Scope f |}
  end.

(** One loop of the cloning constructor [Context(Context& other)]. *)
Definition clone_entries {A : Type} (Clone : A → option A) (other : gmap TypeKey A)
    : gmap TypeKey A :=
  map_fold (λ type entry mine,
    match Clone entry with
    | Some clone => <[type := clone]> mine
    | None => mine
    end) ∅ other.

Definition CreateScope (this : Context) : Context :=
  {| m_instances := clone_entries Instance_Clone (m_instances this);
     m_factories := clone_entries Factory_Clone (m_factories this) |}.

(** *** Destruction *)

(** [~Context()]: every [Instance] is destroyed. [None] is undefined
    behaviour: an object deleted twice. *)
Definition destroy (c : Context) (h : Heap) : option Heap :=
  map_fold (λ _ instance acc, acc ≫= Instance_destroy instance)
    (Some h) (m_instances c).

Definition empty_context : Context := {| m_instances := ∅; m_factories := ∅ |}.
Definition empty_heap : Heap := {| next := 0; objects := ∅ |}.
Definition initial : State := {| ctx := empty_context; heap := empty_heap; trace := [] |}.

(** *** Resolution order, as the specification words it

    The parameters at the positions [order] are resolved one after the
    other, each from the state the one before it left behind, so that
    everything a resolution causes, nested construction and caching
    included, is over when the next one starts. [values] pairs each position
    with the value resolved for it. *)
Inductive resolved_in_order (E : Env) (rec : Api) (Tuple : list Param)
    : list nat → State → list (nat * Arg) → State → Prop :=
| resolved_none (s : State) :
    resolved_in_order E rec Tuple [] s [] s
| resolved_next (i : nat) (p : Param) (v : Arg) (order : list nat)
    (s s1 s2 : State) (values : list (nat * Arg)) :
    Tuple !! i = Some p →
    BuildParameter E rec p s = Ok v s1 →
    resolved_in_order E rec Tuple order s1 values s2 →
    resolved_in_order E rec Tuple (i :: order) s ((i, v) :: values) s2.

(** ** What every call preserves *)

(** [s'] comes after [s]: no address is handed out twice and the record of
    builder calls is only appended to. *)
Definition extends (s s' : State) : Prop :=
  next (heap s) ≤ next (heap s') ∧ ∃ t, trace s' = trace s ++ t.

Definition grows {A : Type} (s : State) (r : Result A) : Prop :=
  match r with
  | Ok _ s' | Throw _ s' => extends s s'
  | Undefined | Ill_formed _ | OutOfFuel => True
  end.

(** The instance cached for [T], if there is one, holds a null pointer or an
    object that is alive, so that replacing it is defined. *)
Definition releasable (T : TypeKey) (s : State) : Prop :=
  ∀ old a, m_instances (ctx s) !! T = Some old → Handle old = Some a →
    is_Some (objects (heap s) !! a).

(** An object a builder returns was made during the call. *)
Definition fresh (s : State) (r : Result (option addr)) : Prop :=
  match r with
  | Ok (Some a) s' => next (heap s) ≤ a ∧ a < next (heap s')
  | _ => True
  end.

Definition api_grows (rec : Api) : Prop :=
  (∀ T s, grows s (require_ptr rec T s)) ∧
  (∀ T b scope s, grows s (provide rec T b scope s)).

(** An object is alive; an address is held by an instance of the context. *)
Definition alive (a : addr) (s : State) : Prop :=
  is_Some (objects (heap s) !! a).

Definition held (a : addr) (s : State) : Prop :=
  ∃ T i, m_instances (ctx s) !! T = Some i ∧ Handle i = Some a.

(** A context in good order on its store: live objects have addresses
    already handed out, every handle held is to a live object, and no two
    instances hold the same object. *)
Record consistent (s : State) : Prop := {
  alive_below_next : ∀ a, alive a s → a < next (heap s);
  held_alive : ∀ a, held a s → alive a s;
  held_once : ∀ T1 T2 i1 i2 a,
    m_instances (ctx s) !! T1 = Some i1 → m_instances (ctx s) !! T2 = Some i2 →
    Handle i1 = Some a → Handle i2 = Some a → T1 = T2;
}.

(** A call is safe when it has defined behaviour and leaves the context in
    good order. *)
Definition safe {A : Type} (r : Result A) : Prop :=
  match r with
  | Ok _ s' | Throw _ s' => consistent s'
  | Undefined => False
  | Ill_formed _ | OutOfFuel => True
  end.

(** A builder call is safe and hands back null or a live object that no
    instance holds yet. *)
Definition builds (r : Result (option addr)) : Prop :=
  match r with
  | Ok h s' => consistent s' ∧ ∀ a, h = Some a → alive a s' ∧ ¬ held a s'
  | Throw _ s' => consistent s'
  | Undefined => False
  | Ill_formed _ | OutOfFuel => True
  end.

Definition api_safe (rec : Api) : Prop :=
  (∀ T s, consistent s → safe (require_ptr rec T s)) ∧
  (∀ T b scope s, consistent s → safe (provide rec T b scope s)).

(** [r'] is [r] computed with a larger recursion budget: the same outcome,
    unless [r] ran out. *)
Definition refines {A : Type} (r r' : Result A) : Prop :=
  r = OutOfFuel ∨ r = r'.

Definition api_refines (rec rec' : Api) : Prop :=
  (∀ T s, refines (require_ptr rec T s) (require_ptr rec' T s)) ∧
  (∀ T b scope s, refines (provide rec T b scope s) (provide rec' T b scope s)).

(** ** Statements about resolution *)

(** What [Require<U*>()] answers at once, without running a builder: the
    handle cached for [U], or null when [U] is neither cached, nor
    registered, nor constructible. *)
Definition answers_at_once (E : Env) (s : State) (U : TypeKey) : option (option addr) :=
  match m_instances (ctx s) !! U with
  | Some instance => Some (Handle instance)
  | None =>
    match m_factories (ctx s) !! U with
    | Some _ => None
    | None => if priv.Constructible (info E U) then None else Some None
    end
  end.

(** The value a parameter resolves to at once: a pointer parameter takes the
    answer as it is, a reference parameter needs it to be non-null. *)
Definition settled (E : Env) (s : State) (p : Param) : option Arg :=
  match p with
  | PPtr U => APtr <$> answers_at_once E s U
  | PRef U => answers_at_once E s U ≫= (λ h, ARef <$> h)
  end.

(** Every type that has an instance, or a factory, in [s] still has one in
    [s']. *)
Definition retains (s s' : State) : Prop :=
  (∀ U, is_Some (m_instances (ctx s) !! U) → is_Some (m_instances (ctx s') !! U)) ∧
  (∀ U, is_Some (m_factories (ctx s) !! U) → is_Some (m_factories (ctx s') !! U)).

(** Every factory registered as [Singleton] has its instance beside it. *)
Definition singletons_built (s : State) : Prop :=
  ∀ T f, m_factories (ctx s) !! T = Some f → Factory_Scope f = Singleton →
    is_Some (m_instances (ctx s) !! T).

Definition steady (s s' : State) : Prop :=
  retains s s' ∧ (singletons_built s → singletons_built s').

Definition stays_steady {A : Type} (s : State) (r : Result A) : Prop :=
  match r with
  | Ok _ s' | Throw _ s' => steady s s'
  | Undefined | Ill_formed _ | OutOfFuel => True
  end.

Definition api_steady (rec : Api) : Prop :=
  (∀ T s, stays_steady s (require_ptr rec T s)) ∧
  (∀ T b scope s, stays_steady s (provide rec T b scope s)).

(** The state a call leaves behind, when it returns or throws. *)
Definition leaves {A : Type} (r : Result A) (s' : State) : Prop :=
  match r with
  | Ok _ s | Throw _ s => s = s'
  | Undefined | Ill_formed _ | OutOfFuel => False
  end.

(** ** A small program

    The classes used to run the container on concrete inputs:
<<
    struct Logger  { Logger(); };
    struct Config  { Config(Logger&); };
    struct Service { Service(Logger&, Config&); };
    struct Either  { Either(Logger&); Either(Config&); };
    struct Client  { Client(Either&); };
    struct Widget  { Widget(); Widget(Logger&); Widget(Config&);
                     Widget(Logger&, Config&, Service&); };
    struct Gadget  { Gadget(Logger&); Gadget(Config&);
                     Gadget(Logger&, Config&, Service&); };
    struct Shape   { virtual void draw() = 0; };
    struct Circle : Shape { Circle(); void draw() override; };
>> *)

Module Example.

Definition Logger : TypeKey := 0.
Definition Config : TypeKey := 1.
Definition Service : TypeKey := 2.
Definition Either : TypeKey := 3.
Definition Client : TypeKey := 4.
Definition Widget : TypeKey := 5.
Definition Gadget : TypeKey := 6.
Definition Shape : TypeKey := 7.
Definition Circle : TypeKey := 8.

Definition Widget_ctors : list (list Param) :=
  [[]; [PRef Logger]; [PRef Config]; [PRef Logger; PRef Config; PRef Service]].

Definition Gadget_ctors : list (list Param) :=
  [[PRef Logger]; [PRef Config]; [PRef Logger; PRef Config; PRef Service]].

Definition classes (T : TypeKey) : TypeInfo :=
  match T with
  | 0 => priv.class_info Logger false [[]]
  | 1 => priv.class_info Config false [[PRef Logger]]
  | 2 => priv.class_info Service false [[PRef Logger; PRef Config]]
  | 3 => priv.class_info Either false [[PRef Logger]; [PRef Config]]
  | 4 => priv.class_info Client false [[PRef Either]]
  | 5 => priv.class_info Widget false Widget_ctors
  | 6 => priv.class_info Gadget false Gadget_ctors
  | 8 => priv.class_info Circle false [[]]
  | _ => priv.class_info T true []
  end.

Definition names (T : TypeKey) : string :=
  match T with
  | 0 => "Logger" | 1 => "Config" | 2 => "Service" | 3 => "Either"
  | 4 => "Client" | 5 => "Widget" | 6 => "Gadget" | 8 => "Circle"
  | _ => "Shape"
  end.

(** The program built by a compiler that evaluates call arguments from the
    left, and by one that evaluates them from the right. *)
Definition from_left : Env :=
  {| info := classes; type_name := names; arg_order := left_to_right |}.
Definition from_right : Env :=
  {| info := classes; type_name := names; arg_order := right_to_left |}.

(** The state a call leaves behind. *)
Definition after {A : Type} (r : Result A) : State :=
  match r with
  | Ok _ s | Throw _ s => s
  | Undefined | Ill_formed _ | OutOfFuel => initial
  end.

(** The child scope of the context of [s], on the same store. *)
Definition in_child (s : State) : State :=
  {| ctx := CreateScope (ctx s); heap := heap s; trace := trace s |}.

(** A root context after [Provide<Logger>()]. *)
Definition with_logger : State :=
  after (Provide_default from_left 1 Logger Local initial).

(** A builder for [Shape] that returns a new [Circle], and one that returns
    a null pointer. *)
Definition make_shape : Builder := Closure (Return_new Circle []).
Definition no_shape : Builder := Closure Return_null.

(** A root context with [Shape] registered as a singleton and [Logger]
    registered locally. *)
Definition parent : State :=
  after (Provide from_left 1 Shape make_shape Singleton with_logger).

End Example.

(** * Properties *)

(** ** Constructor-signature deduction *)

Section Deduction.

Variable p : nat → bool.

(** Below the limit and with enough depth left, the recursion stops at the
    first arity the probe accepts. *)
Lemma count_at_first (a : nat) :
  p a = true →
  ∀ depth n, n ≤ a → a ≤ priv.MaxParameterCount → a - n ≤ depth →
  (∀ b, n ≤ b → b < a → p b = false) →
  priv.GetConstructorParameterCount_at p depth n = a.
Proof.
  intros Ha depth. induction depth as [|d IH]; intros n Hn Hmax Hd Hlow.
  - assert (n = a) as -> by lia. simpl. by rewrite Ha.
  - destruct (decide (n = a)) as [->|Hne].
    + simpl. by rewrite Ha.
    + simpl. rewrite (Hlow n) by lia.
      assert ((n <? priv.MaxParameterCount) = true) as -> by (apply Nat.ltb_lt; lia).
      apply IH; [lia | lia | lia |]. intros b ? ?. apply Hlow; lia.
Qed.

(** When the probe accepts nothing from [n] up to the limit, the recursion
    ends at the limit. *)
Lemma count_at_none :
  ∀ depth n, n ≤ priv.MaxParameterCount → priv.MaxParameterCount - n ≤ depth →
  (∀ b, n ≤ b → b ≤ priv.MaxParameterCount → p b = false) →
  priv.GetConstructorParameterCount_at p depth n = priv.MaxParameterCount.
Proof.
  induction depth as [|d IH]; intros n Hn Hd Hnone.
  - assert (n = priv.MaxParameterCount) as -> by lia. simpl.
    rewrite Hnone by lia. reflexivity.
  - simpl. rewrite (Hnone n) by lia.
    destruct (n <? priv.MaxParameterCount) eqn:Hlt.
    + apply Nat.ltb_lt in Hlt. apply IH; [lia | lia |].
      intros b ? ?. apply Hnone; lia.
    + apply Nat.ltb_ge in Hlt. lia.
Qed.

(** Either nothing below [a] is accepted, or there is a least accepted
    arity below [a]. *)
Lemma least_accepted_below (a : nat) :
  (∀ b, b < a → p b = false) ∨
  (∃ a', a' < a ∧ p a' = true ∧ ∀ b, b < a' → p b = false).
Proof.
  induction a as [|a [Hnone|(a' & Hlt & Hpa & Hleast)]].
  - left. intros b Hb. lia.
  - destruct (p a) eqn:Hpa.
    + right. exists a. split; [lia | done].
    + left. intros b Hb. destruct (decide (b = a)) as [->|]; [done |].
      apply Hnone. lia.
  - right. exists a'. split; [lia | done].
Qed.

Lemma least_accepted (a : nat) :
  p a = true → ∃ a', a' ≤ a ∧ p a' = true ∧ ∀ b, b < a' → p b = false.
Proof.
  intros Ha. destruct (least_accepted_below a) as [Hnone|(a' & ? & ? & ?)].
  - exists a. split; [lia | done].
  - exists a'. split; [lia | done].
Qed.

End Deduction.

Lemma count_below_max (ti : TypeInfo) :
  priv.GetConstructorParameterCount ti < priv.MaxParameterCount ↔
  ∃ a, a < priv.MaxParameterCount ∧ probe ti a = true.
Proof.
  unfold priv.GetConstructorParameterCount. split.
  - intros Hlt.
    destruct (least_accepted_below (probe ti) (S priv.MaxParameterCount))
      as [Hnone|(a' & Hle & Hpa & Hleast)].
    + rewrite count_at_none in Hlt; [lia | lia | lia |].
      intros b _ Hb. apply Hnone. lia.
    + rewrite (count_at_first (probe ti) a' Hpa) in Hlt; [| lia | lia | lia |].
      * eauto.
      * intros; apply Hleast; lia.
  - intros (a & Ha & Hpa).
    destruct (least_accepted (probe ti) a Hpa) as (a' & Hle & Hpa' & Hleast).
    rewrite (count_at_first (probe ti) a' Hpa'); [lia | lia | lia | lia |].
    intros; apply Hleast; lia.
Qed.

(** ** The store only grows *)

Lemma extends_refl s : extends s s.
Proof. split; [lia | exists []; by rewrite app_nil_r]. Qed.

Lemma extends_trans s1 s2 s3 : extends s1 s2 → extends s2 s3 → extends s1 s3.
Proof.
  intros [H1 [t1 E1]] [H2 [t2 E2]]. split; [lia |].
  exists (t1 ++ t2). by rewrite E2, E1, app_assoc.
Qed.

Lemma extends_record e s : extends s (record e s).
Proof. split; [simpl; lia | by exists [e]]. Qed.

Lemma extends_set_instance T i s : extends s (set_instance T i s).
Proof. split; [simpl; lia | exists []; simpl; by rewrite app_nil_r]. Qed.

Lemma extends_set_factory T f s : extends s (set_factory T f s).
Proof. split; [simpl; lia | exists []; simpl; by rewrite app_nil_r]. Qed.

Lemma extends_make_unique o s : extends s (make_unique o s).2.
Proof. split; [simpl; lia | exists []; simpl; by rewrite app_nil_r]. Qed.

(** An assignment to [m_instances[type]] that is defined replaces the entry
    and touches neither the factories, nor the record of builder calls, nor
    the addresses handed out. *)
Lemma assign_instance_inv T i s u s' :
  assign_instance T i s = Ok u s' →
  m_instances (ctx s') = <[T := i]> (m_instances (ctx s)) ∧
  m_factories (ctx s') = m_factories (ctx s) ∧
  trace s' = trace s ∧ next (heap s') = next (heap s).
Proof.
  unfold assign_instance. destruct (m_instances (ctx s) !! T) as [old|].
  - unfold Instance_destroy, delete. destruct (Handle old) as [a|].
    + destruct (objects (heap s) !! a); [| done]. by intros [= <- <-].
    + by intros [= <- <-].
  - by intros [= <- <-].
Qed.

Lemma assign_instance_releasable T i s :
  releasable T s → ∃ s', assign_instance T i s = Ok tt s'.
Proof.
  intros Hrel. unfold assign_instance.
  destruct (m_instances (ctx s) !! T) as [old|] eqn:Hold; [| eauto].
  unfold Instance_destroy, delete. destruct (Handle old) as [a|] eqn:Ha; [| eauto].
  destruct (Hrel old a Hold Ha) as [o Ho]. rewrite Ho. eauto.
Qed.

Lemma assign_instance_grows T i s : grows s (assign_instance T i s).
Proof.
  unfold assign_instance. destruct (m_instances (ctx s) !! T) as [old|].
  - destruct (Instance_destroy old (heap s)) as [h|] eqn:Hd; [| done].
    assert (next h = next (heap s)) as Hn.
    { revert Hd. unfold Instance_destroy, delete. destruct (Handle old) as [a|].
      - destruct (objects (heap s) !! a); [| done]. by intros [= <-].
      - by intros [= <-]. }
    split; [simpl; lia | exists []; simpl; by rewrite app_nil_r].
  - apply extends_set_instance.
Qed.

Lemma grows_bind {A B : Type} s (r : Result A) (k : A → State → Result B) :
  grows s r → (∀ a s', extends s s' → grows s' (k a s')) → grows s (bind r k).
Proof.
  destruct r as [a s'|w s'| | |]; simpl; intros Hr Hk; try done.
  specialize (Hk a s' Hr). destruct (k a s'); simpl in *; eauto using extends_trans.
Qed.

Lemma grows_from s0 s {A : Type} (r : Result A) :
  extends s0 s → grows s r → grows s0 r.
Proof. destruct r; simpl; eauto using extends_trans. Qed.

Section Growth.

Variable E : Env.
Variable rec : Api.
Hypothesis Hrec : api_grows rec.

Lemma Require_ref_with_grows T s : grows s (Require_ref_with E rec T s).
Proof.
  apply grows_bind; [apply Hrec |]. intros [a|] s' _; simpl; apply extends_refl.
Qed.

Lemma Provide_default_with_grows T scope s :
  grows s (Provide_default_with E rec T scope s).
Proof. unfold Provide_default_with. case_match; [apply Hrec | done]. Qed.

Lemma BuildParameter_grows p s : grows s (BuildParameter E rec p s).
Proof.
  destruct p as [U|U]; simpl.
  - apply grows_bind; [apply Hrec |]. intros; simpl; apply extends_refl.
  - apply grows_bind; [apply Require_ref_with_grows |].
    intros; simpl; apply extends_refl.
Qed.

Lemma eval_arguments_grows Tuple order :
  ∀ done s, grows s (eval_arguments E rec Tuple order done s).
Proof.
  induction order as [|i order IH]; intros done s; simpl.
  - apply extends_refl.
  - destruct (Tuple !! i) as [p|]; [| apply IH].
    apply grows_bind; [apply BuildParameter_grows |]. intros; apply IH.
Qed.

Lemma BuildParameters_grows Tuple s : grows s (BuildParameters E rec Tuple s).
Proof.
  apply grows_bind; [apply eval_arguments_grows |]. intros; simpl; apply extends_refl.
Qed.

Lemma As_closure_grows T s : grows s (As_closure E rec T s).
Proof.
  apply grows_bind; [apply BuildParameters_grows |].
  intros args s' _. simpl. apply extends_make_unique.
Qed.

Lemma As_closure_fresh T s : fresh s (As_closure E rec T s).
Proof.
  unfold As_closure.
  pose proof (BuildParameters_grows (priv.ConstructorDescriptor (info E T)) s) as H.
  destruct (BuildParameters _ _ _ _) as [args s'| | | |]; simpl in *; try done.
  destruct H as [H _]. lia.
Qed.

Lemma run_grows p : ∀ s, grows s (run E rec p s).
Proof.
  induction p as [|dynamic args|what|U k IH|U k IH|U scope k IH|U builder _ scope k IH];
    intros s; simpl.
  - apply extends_refl.
  - apply extends_make_unique.
  - apply extends_refl.
  - apply grows_bind; [apply Hrec |]. intros; apply IH.
  - apply grows_bind; [apply Require_ref_with_grows |]. intros; apply IH.
  - apply grows_bind; [apply Provide_default_with_grows |]. intros; apply IH.
  - apply grows_bind; [apply Hrec |]. intros; apply IH.
Qed.

Lemma fresh_bind {A : Type} s (r : Result A) (k : A → State → Result (option addr)) :
  grows s r → (∀ a s', extends s s' → fresh s' (k a s')) → fresh s (bind r k).
Proof.
  destruct r as [a s'|w s'| | |]; simpl; intros Hr Hk; try done.
  specialize (Hk a s' Hr). destruct (k a s') as [[b|] s''| | | |]; simpl in *; try done.
  destruct Hr as [Hr _]. lia.
Qed.

Lemma run_fresh p : ∀ s, fresh s (run E rec p s).
Proof.
  induction p as [|dynamic args|what|U k IH|U k IH|U scope k IH|U builder _ scope k IH];
    intros s; simpl; try done.
  - lia.
  - apply fresh_bind; [apply Hrec |]. intros; apply IH.
  - apply fresh_bind; [apply Require_ref_with_grows |]. intros; apply IH.
  - apply fresh_bind; [apply Provide_default_with_grows |]. intros; apply IH.
  - apply fresh_bind; [apply Hrec |]. intros; apply IH.
Qed.

Lemma Invoke_grows T b s : grows s (Invoke E rec T b s).
Proof.
  unfold Invoke. apply grows_bind.
  - apply (grows_from _ (record (Invoked T) s)); [apply extends_record |].
    destruct b; [apply As_closure_grows | apply run_grows].
  - intros r s' _. simpl. apply extends_record.
Qed.

Lemma Invoke_fresh T b s : fresh s (Invoke E rec T b s).
Proof.
  unfold Invoke.
  assert (fresh (record (Invoked T) s)
            (match b with
             | As => As_closure E rec T (record (Invoked T) s)
             | Closure body => run E rec body (record (Invoked T) s)
             end)) as H
    by (destruct b; [apply As_closure_fresh | apply run_fresh]).
  destruct (match b with As => _ | Closure body => _ end) as [[a|] s'| | | |];
    simpl in *; done.
Qed.

(** The events of one builder call: it is entered, the body runs, it
    returns. *)
Lemma Invoke_trace T b s r s' :
  Invoke E rec T b s = Ok r s' →
  ∃ inner, trace s' = trace s ++ Invoked T :: inner ++ [Returned T r].
Proof.
  unfold Invoke.
  assert (grows (record (Invoked T) s)
            (match b with
             | As => As_closure E rec T (record (Invoked T) s)
             | Closure body => run E rec body (record (Invoked T) s)
             end)) as H
    by (destruct b; [apply As_closure_grows | apply run_grows]).
  destruct (match b with As => _ | Closure body => _ end) as [r0 s0| | | |];
    simpl in *; try done.
  intros [= <- <-]. destruct H as [_ [inner Ht]]. exists inner.
  simpl. rewrite Ht. simpl. by rewrite <- !app_assoc.
Qed.

Lemma Provide_body_grows T b scope s : grows s (Provide_body E rec T b scope s).
Proof.
  apply grows_bind; [apply Invoke_grows |]. intros r s' _.
  apply grows_bind; [apply assign_instance_grows |]. intros _ s'' _. simpl.
  apply extends_set_factory.
Qed.

Lemma Require_ptr_body_grows T s : grows s (Require_ptr_body E rec T s).
Proof.
  unfold Require_ptr_body.
  destruct (m_instances (ctx s) !! T) as [instance|]; [apply extends_refl |].
  destruct (m_factories (ctx s) !! T) as [factory|].
  - apply grows_bind; [apply Invoke_grows |]. intros r s' _.
    apply grows_bind; [apply assign_instance_grows |]. intros _ s'' _. simpl.
    apply extends_refl.
  - case_match; [| apply extends_refl].
    apply grows_bind; [apply Provide_default_with_grows |]. intros; apply Hrec.
Qed.

End Growth.

Lemma api_grows_fuel E fuel : api_grows (api E fuel).
Proof.
  induction fuel as [|n IH]; split; simpl; try done.
  - intros. by apply Require_ptr_body_grows.
  - intros. by apply Provide_body_grows.
Qed.

(** ** Within one context nothing is deleted twice *)

Lemma consistent_initial : consistent initial.
Proof.
  split.
  - intros a [o Ho]. simpl in Ho. by rewrite lookup_empty in Ho.
  - intros a (T & i & Hi & _). simpl in Hi. by rewrite lookup_empty in Hi.
  - intros T1 T2 i1 i2 a Hi. simpl in Hi. by rewrite lookup_empty in Hi.
Qed.

Lemma consistent_record e s : consistent s → consistent (record e s).
Proof. intros [H1 H2 H3]. by split. Qed.

Lemma consistent_set_factory T f s : consistent s → consistent (set_factory T f s).
Proof. intros [H1 H2 H3]. by split. Qed.

Lemma consistent_make_unique o s :
  consistent s →
  consistent (make_unique o s).2 ∧
  alive (make_unique o s).1 (make_unique o s).2 ∧
  ¬ held (make_unique o s).1 (make_unique o s).2.
Proof.
  intros [H1 H2 H3]. split; [split |split].
  - intros a [o' Ho']. simpl in *.
    destruct (decide (next (heap s) = a)) as [<-|Hne]; [lia |].
    rewrite lookup_insert_ne in Ho' by done. assert (a < next (heap s)); [| lia].
    apply H1. by exists o'.
  - intros a Hheld. unfold alive. simpl.
    destruct (decide (next (heap s) = a)) as [<-|Hne].
    + rewrite lookup_insert_eq. eauto.
    + rewrite lookup_insert_ne by done. by apply H2.
  - exact H3.
  - unfold alive. simpl. rewrite lookup_insert_eq. eauto.
  - intros Hheld. simpl in Hheld. assert (next (heap s) < next (heap s)); [| lia].
    apply H1, H2. exact Hheld.
Qed.

(** A context whose instances are those of a context in good order, one of
    them replaced by a handle nobody held, on a store that still has every
    object but possibly the one the replaced instance owned. *)
Lemma consistent_replaced T i s h :
  consistent s →
  (∀ a, Handle i = Some a → alive a s ∧ ¬ held a s) →
  next h = next (heap s) →
  (∀ a, is_Some (objects h !! a) → alive a s) →
  (∀ a, alive a s → is_Some (objects h !! a) ∨
        ∃ old, m_instances (ctx s) !! T = Some old ∧ Handle old = Some a) →
  consistent {| ctx := ctx (set_instance T i s); heap := h; trace := trace s |}.
Proof.
  intros [H1 H2 H3] Hnew Hnext Hsub Hkept. split.
  - intros a Ha. simpl. rewrite Hnext. by apply H1, Hsub.
  - intros a (T' & i' & Hi' & Ha'). simpl in Hi'. unfold alive. simpl.
    destruct (decide (T = T')) as [<-|Hne].
    + rewrite lookup_insert_eq in Hi'. injection Hi' as <-.
      destruct (Hnew a Ha') as [Halive Hunheld].
      destruct (Hkept a Halive) as [Hh|(old & Hold & Ha)]; [done |].
      exfalso. apply Hunheld. by exists T, old.
    + rewrite lookup_insert_ne in Hi' by done.
      destruct (Hkept a) as [Hh|(old & Hold & Ha)]; [apply H2; by exists T', i' | done |].
      exfalso. apply Hne. by apply (H3 T T' old i' a).
  - intros T1 T2 i1 i2 a. simpl.
    destruct (decide (T = T1)) as [<-|Hne1]; destruct (decide (T = T2)) as [<-|Hne2];
      try done.
    + rewrite lookup_insert_eq, lookup_insert_ne by done.
      intros [= <-] Hi2 Ha1 Ha2. destruct (Hnew a Ha1) as [_ Hunheld].
      exfalso. apply Hunheld. by exists T2, i2.
    + rewrite lookup_insert_eq, lookup_insert_ne by done.
      intros Hi1 [= <-] Ha1 Ha2. destruct (Hnew a Ha2) as [_ Hunheld].
      exfalso. apply Hunheld. by exists T1, i1.
    + rewrite !lookup_insert_ne by done. apply H3.
Qed.

(** Storing a handle that no instance holds yet keeps the context in good
    order: the instance replaced, if any, owned an object of its own. *)
Lemma assign_instance_safe T i s :
  consistent s →
  (∀ a, Handle i = Some a → alive a s ∧ ¬ held a s) →
  safe (assign_instance T i s).
Proof.
  intros Hs Hnew. unfold assign_instance.
  destruct (m_instances (ctx s) !! T) as [old|] eqn:Hold.
  - unfold Instance_destroy, delete. destruct (Handle old) as [b|] eqn:Hb.
    + destruct (held_alive s Hs b) as [o Ho]; [by exists T, old |]. rewrite Ho.
      apply consistent_replaced; try done.
      * intros a [o' Ho']. simpl in Ho'.
        apply lookup_delete_Some in Ho' as [_ Ho']. by exists o'.
      * intros a [o' Ho']. simpl. destruct (decide (b = a)) as [<-|Hne]; [eauto |].
        left. rewrite lookup_delete_ne by done. eauto.
    + apply consistent_replaced; eauto.
  - apply (consistent_replaced T i s (heap s)); eauto.
Qed.

Lemma consistent_releasable T s : consistent s → releasable T s.
Proof. intros [_ H2 _] old a Hold Ha. apply H2. by exists T, old. Qed.

Lemma safe_bind {A B : Type} (r : Result A) (k : A → State → Result B) :
  safe r → (∀ a s', consistent s' → safe (k a s')) → safe (bind r k).
Proof. destruct r; simpl; eauto. Qed.

Lemma builds_bind {A : Type} (r : Result A) (k : A → State → Result (option addr)) :
  safe r → (∀ a s', consistent s' → builds (k a s')) → builds (bind r k).
Proof. destruct r; simpl; eauto. Qed.

Lemma builds_safe (r : Result (option addr)) : builds r → safe r.
Proof. destruct r; simpl; tauto. Qed.

Section Safety.

Variable E : Env.
Variable rec : Api.
Hypothesis Hrec : api_safe rec.

Lemma Require_ref_with_safe T s : consistent s → safe (Require_ref_with E rec T s).
Proof.
  intros Hs. apply safe_bind; [by apply Hrec |]. by intros [a|] s' Hs'.
Qed.

Lemma Provide_default_with_safe T scope s :
  consistent s → safe (Provide_default_with E rec T scope s).
Proof. intros Hs. unfold Provide_default_with. case_match; [by apply Hrec | done]. Qed.

Lemma BuildParameter_safe p s : consistent s → safe (BuildParameter E rec p s).
Proof.
  intros Hs. destruct p as [U|U]; simpl.
  - apply safe_bind; [by apply Hrec | done].
  - apply safe_bind; [by apply Require_ref_with_safe | done].
Qed.

Lemma eval_arguments_safe Tuple order :
  ∀ values s, consistent s → safe (eval_arguments E rec Tuple order values s).
Proof.
  induction order as [|i order IH]; intros values s Hs; simpl; [done |].
  destruct (Tuple !! i) as [p|]; [| by apply IH].
  apply safe_bind; [by apply BuildParameter_safe |]. intros; by apply IH.
Qed.

Lemma As_closure_builds T s : consistent s → builds (As_closure E rec T s).
Proof.
  intros Hs. apply builds_bind.
  - apply safe_bind; [by apply eval_arguments_safe | done].
  - intros args s' Hs'.
    destruct (consistent_make_unique {| obj_type := T; obj_args := args |} s' Hs')
      as (Hc & Ha & Hh).
    simpl. split; [exact Hc |]. by intros a [= <-].
Qed.

Lemma run_builds p : ∀ s, consistent s → builds (run E rec p s).
Proof.
  induction p as [|dynamic args|what|U k IH|U k IH|U scope k IH|U builder _ scope k IH];
    intros s Hs; simpl.
  - done.
  - destruct (consistent_make_unique {| obj_type := dynamic; obj_args := args |} s Hs)
      as (Hc & Ha & Hh).
    split; [exact Hc |]. by intros a [= <-].
  - done.
  - apply builds_bind; [by apply Hrec |]. intros; by apply IH.
  - apply builds_bind; [by apply Require_ref_with_safe |]. intros; by apply IH.
  - apply builds_bind; [by apply Provide_default_with_safe |]. intros; by apply IH.
  - apply builds_bind; [by apply Hrec |]. intros; by apply IH.
Qed.

Lemma Invoke_builds T b s : consistent s → builds (Invoke E rec T b s).
Proof.
  intros Hs. unfold Invoke.
  assert (builds (match b with
                  | As => As_closure E rec T (record (Invoked T) s)
                  | Closure body => run E rec body (record (Invoked T) s)
                  end)) as H
    by (destruct b; [apply As_closure_builds | apply run_builds];
        by apply consistent_record).
  destruct (match b with As => _ | Closure body => _ end) as [r s'| | | |];
    simpl in *; try done.
  destruct H as [Hc Hr]. split; [by apply consistent_record |]. exact Hr.
Qed.

Lemma Provide_body_safe T b scope s :
  consistent s → safe (Provide_body E rec T b scope s).
Proof.
  intros Hs. unfold Provide_body.
  pose proof (Invoke_builds T b s Hs) as H.
  destruct (Invoke E rec T b s) as [r s'| | | |]; simpl in *; try done.
  destruct H as [Hc Hr]. apply safe_bind.
  - by apply assign_instance_safe.
  - intros _ s'' Hs''. simpl. by apply consistent_set_factory.
Qed.

Lemma Require_ptr_body_safe T s :
  consistent s → safe (Require_ptr_body E rec T s).
Proof.
  intros Hs. unfold Require_ptr_body.
  destruct (m_instances (ctx s) !! T) as [instance|]; [done |].
  destruct (m_factories (ctx s) !! T) as [factory|].
  - pose proof (Invoke_builds T (Factory_Builder factory) s Hs) as H.
    destruct (Invoke E rec T (Factory_Builder factory) s) as [r s'| | | |];
      simpl in *; try done.
    destruct H as [Hc Hr]. apply safe_bind; [by apply assign_instance_safe | done].
  - case_match; [| done].
    apply safe_bind; [by apply Provide_default_with_safe |]. intros; by apply Hrec.
Qed.

End Safety.

(** From a context in good order, no call has undefined behaviour, and
    every call that returns or throws leaves the context in good order. *)
Lemma api_safe_fuel E fuel : api_safe (api E fuel).
Proof.
  induction fuel as [|n IH]; split; simpl; try done.
  - intros. by apply Require_ptr_body_safe.
  - intros. by apply Provide_body_safe.
Qed.

(** ** Scopes *)

Lemma lookup_clone_entries {A : Type} (Clone : A → option A) (other : gmap TypeKey A)
    (T : TypeKey) :
  clone_entries Clone other !! T = other !! T ≫= Clone.
Proof.
  unfold clone_entries.
  apply (map_fold_weak_ind (λ mine other, mine !! T = other !! T ≫= Clone)).
  - by rewrite !lookup_empty.
  - intros type entry m mine Hfresh IH.
    destruct (decide (type = T)) as [->|Hne].
    + rewrite lookup_insert_eq. simpl. rewrite Hfresh in IH. simpl in IH.
      destruct (Clone entry) as [clone|]; [by rewrite lookup_insert_eq | done].
    + rewrite lookup_insert_ne by done.
      destruct (Clone entry) as [clone|]; [by rewrite lookup_insert_ne | done].
Qed.

(** The child of a context in good order is in good order on the same
    store: it holds nothing the parent does not hold. *)
Lemma consistent_CreateScope this h tr :
  consistent {| ctx := this; heap := h; trace := tr |} →
  consistent {| ctx := CreateScope this; heap := h; trace := tr |}.
Proof.
  intros [H1 H2 H3].
  assert (∀ T i, m_instances (CreateScope this) !! T = Some i →
                 m_instances this !! T = Some i) as Hsub.
  { intros T i. simpl. rewrite lookup_clone_entries.
    destruct (m_instances this !! T) as [[r scope]|]; [| done]. simpl.
    unfold Instance_Clone. simpl. destruct scope; [done |]. by intros [= <-]. }
  split.
  - exact H1.
  - intros a (T & i & Hi & Ha). apply H2. exists T, i. split; [by apply Hsub | done].
  - intros T1 T2 i1 i2 a Hi1 Hi2. apply H3; by apply Hsub.
Qed.

(** ** More fuel changes no outcome *)

Lemma refines_refl {A : Type} (r : Result A) : refines r r.
Proof. by right. Qed.

Lemma refines_bind {A B : Type} (r r' : Result A) (k k' : A → State → Result B) :
  refines r r' → (∀ a s, refines (k a s) (k' a s)) → refines (bind r k) (bind r' k').
Proof.
  intros [->| ->] Hk; [by left |].
  destruct r' as [a s| | | |]; simpl; [apply Hk | by right ..].
Qed.

Section Fuel.

Variable E : Env.
Variables rec rec' : Api.
Hypothesis Hrec : api_refines rec rec'.

Lemma Require_ref_with_refines T s :
  refines (Require_ref_with E rec T s) (Require_ref_with E rec' T s).
Proof. apply refines_bind; [apply Hrec | intros; apply refines_refl]. Qed.

Lemma Provide_default_with_refines T scope s :
  refines (Provide_default_with E rec T scope s) (Provide_default_with E rec' T scope s).
Proof.
  unfold Provide_default_with. case_match; [apply Hrec | apply refines_refl].
Qed.

Lemma BuildParameter_refines p s :
  refines (BuildParameter E rec p s) (BuildParameter E rec' p s).
Proof.
  destruct p as [U|U]; simpl; apply refines_bind;
    [apply Hrec | intros; apply refines_refl
    | apply Require_ref_with_refines | intros; apply refines_refl].
Qed.

Lemma eval_arguments_refines Tuple order :
  ∀ values s,
    refines (eval_arguments E rec Tuple order values s)
            (eval_arguments E rec' Tuple order values s).
Proof.
  induction order as [|i order IH]; intros values s; simpl; [apply refines_refl |].
  destruct (Tuple !! i) as [p|]; [| apply IH].
  apply refines_bind; [apply BuildParameter_refines | intros; apply IH].
Qed.

Lemma As_closure_refines T s : refines (As_closure E rec T s) (As_closure E rec' T s).
Proof.
  apply refines_bind; [| intros; apply refines_refl].
  apply refines_bind; [apply eval_arguments_refines | intros; apply refines_refl].
Qed.

Lemma run_refines p : ∀ s, refines (run E rec p s) (run E rec' p s).
Proof.
  induction p as [|dynamic args|what|U k IH|U k IH|U scope k IH|U builder _ scope k IH];
    intros s; simpl; try apply refines_refl.
  - apply refines_bind; [apply Hrec | intros; apply IH].
  - apply refines_bind; [apply Require_ref_with_refines | intros; apply IH].
  - apply refines_bind; [apply Provide_default_with_refines | intros; apply IH].
  - apply refines_bind; [apply Hrec | intros; apply IH].
Qed.

Lemma Invoke_refines T b s : refines (Invoke E rec T b s) (Invoke E rec' T b s).
Proof.
  apply refines_bind; [| intros; apply refines_refl].
  destruct b; [apply As_closure_refines | apply run_refines].
Qed.

Lemma Provide_body_refines T b scope s :
  refines (Provide_body E rec T b scope s) (Provide_body E rec' T b scope s).
Proof. apply refines_bind; [apply Invoke_refines | intros; apply refines_refl]. Qed.

Lemma Require_ptr_body_refines T s :
  refines (Require_ptr_body E rec T s) (Require_ptr_body E rec' T s).
Proof.
  unfold Require_ptr_body.
  destruct (m_instances (ctx s) !! T); [apply refines_refl |].
  destruct (m_factories (ctx s) !! T).
  - apply refines_bind; [apply Invoke_refines | intros; apply refines_refl].
  - case_match; [| apply refines_refl].
    apply refines_bind; [apply Provide_default_with_refines | intros; apply Hrec].
Qed.

End Fuel.

Lemma api_refines_succ E fuel : api_refines (api E fuel) (api E (S fuel)).
Proof.
  induction fuel as [|n IH]; [split; intros; by left |].
  split; intros.
  - by apply Require_ptr_body_refines.
  - by apply Provide_body_refines.
Qed.

(** A call that ends within some budget ends the same way within every
    larger one. *)
Lemma fuel_monotone E fuel fuel' :
  fuel ≤ fuel' →
  (∀ T s, Require_ptr E fuel T s ≠ OutOfFuel →
          Require_ptr E fuel' T s = Require_ptr E fuel T s) ∧
  (∀ T b scope s, Provide E fuel T b scope s ≠ OutOfFuel →
          Provide E fuel' T b scope s = Provide E fuel T b scope s).
Proof.
  induction 1 as [|m Hle [IHr IHp]]; [done |].
  destruct (api_refines_succ E m) as [Hr Hp]. split.
  - intros T s Hne. rewrite <- (IHr T s Hne).
    destruct (Hr T s) as [Hout|Heq]; [| done].
    unfold Require_ptr in *. rewrite (IHr T s Hne) in Hout. done.
  - intros T b scope s Hne. rewrite <- (IHp T b scope s Hne).
    destruct (Hp T b scope s) as [Hout|Heq]; [| done].
    unfold Provide in *. rewrite (IHp T b scope s Hne) in Hout. done.
Qed.

(** ** The claims *)

(** C6. Constructor-signature deduction selects the smallest arity, from 0
    to 100, at which the probe finds exactly one constructor; an arity at
    which the overloads are ambiguous is passed over. A class with a
    constructor without parameters, two ambiguous one-parameter overloads
    and a three-parameter constructor is deduced at arity 0, not 1 or 3;
    without the first of these it is deduced at arity 3. *)
Theorem shortest_unambiguous_arity :
  (∀ (ti : TypeInfo) (a : nat),
     a ≤ priv.MaxParameterCount →
     probe ti a = true →
     (∀ b, b < a → probe ti b = false) →
     priv.GetConstructorParameterCount ti = a) ∧
  (let widget := priv.class_info Example.Widget false Example.Widget_ctors in
   probe widget 0 = true ∧ probe widget 1 = false ∧ probe widget 3 = true ∧
   priv.GetConstructorParameterCount widget = 0) ∧
  (let gadget := priv.class_info Example.Gadget false Example.Gadget_ctors in
   probe gadget 0 = false ∧ probe gadget 1 = false ∧ probe gadget 2 = false ∧
   probe gadget 3 = true ∧ priv.GetConstructorParameterCount gadget = 3).
Proof.
  split; [| split].
  - intros ti a Hmax Ha Hleast. unfold priv.GetConstructorParameterCount.
    apply count_at_first; [done | lia | done | lia |].
    intros b _ Hb. by apply Hleast.
  - repeat split; reflexivity.
  - repeat split; reflexivity.
Qed.

Lemma shortest_unambiguous_arity_witness :
  3 ≤ priv.MaxParameterCount ∧
  priv.GetConstructorParameterCount (Example.classes Example.Gadget) = 3.
Proof.
  split; [unfold priv.MaxParameterCount; lia |].
  apply (proj1 shortest_unambiguous_arity (Example.classes Example.Gadget) 3).
  - unfold priv.MaxParameterCount; lia.
  - reflexivity.
  - intros b Hb. destruct b as [|[|[|b]]]; [reflexivity | reflexivity | reflexivity | lia].
Defined.

(** C7. A class is constructible exactly when it is not abstract and is
    default-constructible or has a signature at an arity below 100. The
    form of [Provide] without a builder goes on to register the closure
    [As<T>()] when the class is constructible, and otherwise is rejected at
    build time, before anything runs, with a message that points to the
    overload taking a builder. *)
Theorem Constructible_decides_Provide (E : Env) (T : TypeKey) :
  (priv.Constructible (info E T) = true ↔
     is_abstract (info E T) = false ∧
     (is_default_constructible (info E T) = true ∨
      ∃ a, a < priv.MaxParameterCount ∧ probe (info E T) a = true)) ∧
  (priv.Constructible (info E T) = true →
     ∀ fuel scope s, Provide_default E fuel T scope s = Provide E fuel T As scope s) ∧
  (priv.Constructible (info E T) = false →
     ∀ fuel scope s, Provide_default E fuel T scope s = Ill_formed static_assert_message) ∧
  String.prefix "Use Provide<T>(Builder<T>, Scope) instead" static_assert_message = true.
Proof.
  split; [| split; [| split]].
  - unfold priv.Constructible.
    rewrite andb_true_iff, negb_true_iff, orb_true_iff, Nat.ltb_lt, count_below_max.
    reflexivity.
  - intros HC fuel scope s. unfold Provide_default, Provide_default_with.
    by rewrite HC.
  - intros HC fuel scope s. unfold Provide_default, Provide_default_with.
    by rewrite HC.
  - reflexivity.
Qed.

Lemma Constructible_decides_Provide_witness :
  priv.Constructible (info Example.from_left Example.Shape) = false ∧
  Provide_default Example.from_left 5 Example.Shape Local initial =
    Ill_formed static_assert_message.
Proof.
  split; [reflexivity |].
  apply (Constructible_decides_Provide Example.from_left Example.Shape). reflexivity.
Defined.

(** What [Provide] leaves in the two maps. *)
Lemma Provide_stores E fuel T b scope s s' :
  Provide E fuel T b scope s = Ok tt s' →
  ∃ r, m_instances (ctx s') !! T = Some {| Handle := r; Instance_Scope := scope |} ∧
       m_factories (ctx s') !! T = Some {| Factory_Builder := b; Factory_Scope := scope |}.
Proof.
  destruct fuel as [|n]; [done |]. unfold Provide. simpl. unfold Provide_body.
  destruct (Invoke E (api E n) T b s) as [r s1| | | |]; simpl; try done.
  destruct (assign_instance T _ s1) as [[] s2| | | |] eqn:Ha; simpl; try done.
  intros [= <-]. apply assign_instance_inv in Ha as (Hi & _). exists r. simpl.
  by rewrite Hi, !lookup_insert_eq.
Qed.

(** A cached instance answers [Require] at once, whatever else the context
    holds. *)
Lemma Require_ptr_cached E fuel T s instance :
  m_instances (ctx s) !! T = Some instance →
  Require_ptr E (S fuel) T s = Ok (Handle instance) s.
Proof. intros H. unfold Require_ptr. simpl. unfold Require_ptr_body. by rewrite H. Qed.

(** C1. With no instance cached for [T]: if a factory is registered, the
    pointer form of [Require] calls its builder on the current context,
    caches the result as a [Local] instance whatever scope the factory
    declares, and returns it (in a context in good order, whenever the
    builder returns); if none is registered and [T] is constructible, it
    calls [Provide<T>()] and then itself once more, and that second call is
    answered from the cache; if none is registered and [T] is not
    constructible, it returns a null pointer. *)
Theorem Require_ptr_resolution (E : Env) (fuel : nat) (T : TypeKey) (s : State) :
  m_instances (ctx s) !! T = None →
  (∀ factory, m_factories (ctx s) !! T = Some factory →
     Require_ptr E (S fuel) T s =
       bind (Invoke E (api E fuel) T (Factory_Builder factory) s) (λ r s',
         bind (assign_instance T {| Handle := r; Instance_Scope := Local |} s') (λ _ s'',
           Ok r s'')) ∧
     ∀ r s', consistent s →
       Invoke E (api E fuel) T (Factory_Builder factory) s = Ok r s' →
       ∃ s'', Require_ptr E (S fuel) T s = Ok r s'' ∧
         m_instances (ctx s'') !! T = Some {| Handle := r; Instance_Scope := Local |} ∧
         ∃ inner, trace s'' = trace s ++ Invoked T :: inner ++ [Returned T r]) ∧
  (m_factories (ctx s) !! T = None → priv.Constructible (info E T) = true →
     Require_ptr E (S fuel) T s =
       bind (Provide_default E fuel T Local s) (λ _ s', Require_ptr E fuel T s') ∧
     ∀ s', Provide_default E fuel T Local s = Ok tt s' →
       ∃ r, m_instances (ctx s') !! T = Some {| Handle := r; Instance_Scope := Local |} ∧
            Require_ptr E fuel T s' = Ok r s' ∧
            Require_ptr E (S fuel) T s = Ok r s') ∧
  (m_factories (ctx s) !! T = None → priv.Constructible (info E T) = false →
     Require_ptr E (S fuel) T s = Ok None s).
Proof.
  intros Hnone. split; [| split].
  - intros factory Hf.
    assert (Require_ptr E (S fuel) T s =
       bind (Invoke E (api E fuel) T (Factory_Builder factory) s) (λ r s',
         bind (assign_instance T {| Handle := r; Instance_Scope := Local |} s') (λ _ s'',
           Ok r s''))) as Heq.
    { unfold Require_ptr. simpl. unfold Require_ptr_body. by rewrite Hnone, Hf. }
    split; [exact Heq |]. intros r s' Hs Hb. rewrite Heq, Hb. simpl.
    pose proof (Invoke_builds E (api E fuel) (api_safe_fuel E fuel) T
                  (Factory_Builder factory) s Hs) as Hs'.
    rewrite Hb in Hs'. destruct Hs' as [Hs' _].
    destruct (assign_instance_releasable T {| Handle := r; Instance_Scope := Local |} s'
                (consistent_releasable T s' Hs')) as [s'' Ha].
    rewrite Ha. simpl. apply assign_instance_inv in Ha as (Hi & _ & Ht & _).
    exists s''. split; [done |]. rewrite Hi, lookup_insert_eq, Ht. split; [done |].
    eapply Invoke_trace; [apply api_grows_fuel | exact Hb].
  - intros Hf HC.
    assert (Require_ptr E (S fuel) T s =
            bind (Provide_default E fuel T Local s) (λ _ s', Require_ptr E fuel T s')) as Heq.
    { unfold Require_ptr at 1. simpl. unfold Require_ptr_body.
      by rewrite Hnone, Hf, HC. }
    split; [done |]. intros s' Hp. rewrite Heq, Hp. simpl.
    unfold Provide_default, Provide_default_with in Hp. rewrite HC in Hp.
    destruct (Provide_stores E fuel T As Local s s' Hp) as (r & Hi & _).
    exists r. destruct fuel as [|n]; [done |].
    by rewrite (Require_ptr_cached E n T s' _ Hi).
  - intros Hf HC. unfold Require_ptr. simpl. unfold Require_ptr_body.
    by rewrite Hnone, Hf, HC.
Qed.

Lemma Require_ptr_resolution_witness :
  m_instances (ctx (Example.in_child Example.parent)) !! Example.Logger = None ∧
  m_factories (ctx (Example.in_child Example.parent)) !! Example.Logger =
    Some {| Factory_Builder := As; Factory_Scope := Local |} ∧
  ∃ s', Require_ptr Example.from_left 1 Example.Logger (Example.in_child Example.parent)
          = Ok (Some 2) s' ∧
        m_instances (ctx s') !! Example.Logger =
          Some {| Handle := Some 2; Instance_Scope := Local |}.
Proof.
  split; [reflexivity | split; [reflexivity |]].
  destruct (Require_ptr_resolution Example.from_left 0 Example.Logger
              (Example.in_child Example.parent) eq_refl) as [H _].
  rewrite (proj1 (H _ eq_refl)). eexists. split; reflexivity.
Defined.

(** [Provide] once its builder has returned. *)
Lemma Provide_after_Invoke E fuel T builder scope s r s' :
  Invoke E (api E fuel) T builder s = Ok r s' →
  releasable T s' →
  ∃ s'', Provide E (S fuel) T builder scope s = Ok tt s'' ∧
    m_instances (ctx s'') !! T = Some {| Handle := r; Instance_Scope := scope |} ∧
    m_factories (ctx s'') !! T =
      Some {| Factory_Builder := builder; Factory_Scope := scope |} ∧
    ∃ inner, trace s'' = trace s ++ Invoked T :: inner ++ [Returned T r].
Proof.
  intros Hb Hrel. unfold Provide. simpl. unfold Provide_body. rewrite Hb. simpl.
  destruct (assign_instance_releasable T {| Handle := r; Instance_Scope := scope |} s' Hrel)
    as [s1 Ha].
  rewrite Ha. simpl. apply assign_instance_inv in Ha as (Hi & _ & Ht & _).
  eexists. split; [reflexivity |]. simpl. rewrite Hi, !lookup_insert_eq, Ht.
  repeat split. eapply Invoke_trace; [apply api_grows_fuel | exact Hb].
Qed.

(** C4. [Provide<T>(builder, scope)] calls the builder once, on the context
    it is called on: the record of builder calls gains the entry of this
    call, what the body itself caused, and the return of this call. When the
    builder returns, the instance holding the result and the factory holding
    the builder are stored under [T], both with the declared scope. (An
    instance cached for [T] before is released; in a context in good order
    that is defined, and the context stays in good order.) *)
Theorem Provide_builds_and_stores (E : Env) (fuel : nat) (T : TypeKey)
    (builder : Builder) (scope : Scope) (s : State) :
  Provide E (S fuel) T builder scope s =
    bind (Invoke E (api E fuel) T builder s) (λ r s',
      bind (assign_instance T {| Handle := r; Instance_Scope := scope |} s') (λ _ s'',
        Ok tt (set_factory T {| Factory_Builder := builder; Factory_Scope := scope |} s''))) ∧
  ∀ r s', consistent s → Invoke E (api E fuel) T builder s = Ok r s' →
    ∃ s'', Provide E (S fuel) T builder scope s = Ok tt s'' ∧
      m_instances (ctx s'') !! T = Some {| Handle := r; Instance_Scope := scope |} ∧
      m_factories (ctx s'') !! T =
        Some {| Factory_Builder := builder; Factory_Scope := scope |} ∧
      (∃ inner, trace s'' = trace s ++ Invoked T :: inner ++ [Returned T r]) ∧
      consistent s''.
Proof.
  split; [reflexivity |]. intros r s' Hs Hb.
  pose proof (Invoke_builds E (api E fuel) (api_safe_fuel E fuel) T builder s Hs) as Hs'.
  rewrite Hb in Hs'. destruct Hs' as [Hs' _].
  destruct (Provide_after_Invoke E fuel T builder scope s r s' Hb
              (consistent_releasable T s' Hs')) as (s'' & Hp & Hi & Hf & Ht).
  exists s''. do 4 (split; [done |]).
  pose proof (proj2 (api_safe_fuel E (S fuel)) T builder scope s Hs) as Hsafe.
  unfold Provide in Hp. by rewrite Hp in Hsafe.
Qed.

Lemma Provide_builds_and_stores_witness :
  let built := record (Returned Example.Shape (Some 0))
                 (make_unique {| obj_type := Example.Circle; obj_args := [] |}
                    (record (Invoked Example.Shape) initial)).2 in
  consistent initial ∧
  Invoke Example.from_left (api Example.from_left 0) Example.Shape Example.make_shape initial
    = Ok (Some 0) built ∧
  ∃ s'', Provide Example.from_left 1 Example.Shape Example.make_shape Singleton initial
           = Ok tt s'' ∧
         m_instances (ctx s'') !! Example.Shape =
           Some {| Handle := Some 0; Instance_Scope := Singleton |} ∧
         m_factories (ctx s'') !! Example.Shape =
           Some {| Factory_Builder := Example.make_shape; Factory_Scope := Singleton |} ∧
         trace s'' = [Invoked Example.Shape; Returned Example.Shape (Some 0)].
Proof.
  intros built.
  split; [exact consistent_initial |]. split; [reflexivity |].
  destruct (proj2 (Provide_builds_and_stores Example.from_left 0 Example.Shape
                     Example.make_shape Singleton initial) _ built consistent_initial eq_refl)
    as (s'' & Hp & Hi & Hf & _).
  exists s''. repeat split; try done.
  revert Hp. vm_compute. by intros [= <-].
Defined.

(** The instance [Require] leaves behind: after a call that returns, either
    the cache holds the returned handle, or nothing was there to resolve
    and nothing changed. *)
Lemma Require_ptr_returns E fuel T s h s' :
  Require_ptr E fuel T s = Ok h s' →
  (∃ instance, m_instances (ctx s') !! T = Some instance ∧ Handle instance = h) ∨
  (s' = s ∧ h = None ∧ m_instances (ctx s) !! T = None ∧
   m_factories (ctx s) !! T = None ∧ priv.Constructible (info E T) = false).
Proof.
  destruct fuel as [|n]; [done |]. unfold Require_ptr. simpl. unfold Require_ptr_body.
  destruct (m_instances (ctx s) !! T) as [instance|] eqn:Hi.
  { intros [= <- <-]. left. eauto. }
  destruct (m_factories (ctx s) !! T) as [factory|] eqn:Hf.
  { destruct (Invoke _ _ _ _ _) as [r s1| | | |]; simpl; try done.
    destruct (assign_instance T _ s1) as [[] s2| | | |] eqn:Ha; simpl; try done.
    intros [= <- <-]. apply assign_instance_inv in Ha as (Hi2 & _).
    left. eexists. rewrite Hi2. by rewrite lookup_insert_eq. }
  destruct (priv.Constructible (info E T)) eqn:HC.
  - unfold Provide_default_with. rewrite HC.
    destruct (provide (api E n) T As Local s) as [[] s1| | | |] eqn:Hp; simpl; try done.
    destruct (Provide_stores E n T As Local s s1 Hp) as (r & Hi1 & _).
    destruct n as [|n]; [done |]. simpl. unfold Require_ptr_body. rewrite Hi1.
    intros [= <- <-]. left. eauto.
  - intros [= <- <-]. right. done.
Qed.

(** C8. A [Require] that finds an instance cached for [T] returns its handle
    and changes nothing: no builder runs. So a second [Require], made right
    after one that returned, returns the same handle and changes nothing. *)
Theorem Require_ptr_stable (E : Env) (T : TypeKey) :
  (∀ fuel s instance,
     m_instances (ctx s) !! T = Some instance →
     Require_ptr E (S fuel) T s = Ok (Handle instance) s) ∧
  (∀ fuel fuel' s h s',
     Require_ptr E fuel T s = Ok h s' →
     Require_ptr E (S fuel') T s' = Ok h s').
Proof.
  split; [intros; by apply Require_ptr_cached |].
  intros fuel fuel' s h s' H.
  destruct (Require_ptr_returns E fuel T s h s' H)
    as [(instance & Hi & <-)|(-> & -> & Hi & Hf & HC)].
  - by apply Require_ptr_cached.
  - unfold Require_ptr. simpl. unfold Require_ptr_body. by rewrite Hi, Hf, HC.
Qed.

Lemma Require_ptr_stable_witness :
  let first := Require_ptr Example.from_left 9 Example.Service initial in
  first = Ok (Some 2) (Example.after first) ∧
  Require_ptr Example.from_left 1 Example.Service (Example.after first) =
    Ok (Some 2) (Example.after first).
Proof.
  assert (Require_ptr Example.from_left 9 Example.Service initial =
          Ok (Some 2) (Example.after (Require_ptr Example.from_left 9 Example.Service initial)))
    as H by (vm_compute; reflexivity).
  split; [exact H |].
  exact (proj2 (Require_ptr_stable Example.from_left Example.Service) 9 0 _ _ _ H).
Defined.

(** C10. When the builder given to [Provide] returns a null pointer, the
    instance cached for [T] holds that null pointer beside the factory;
    every later [Require<T*>()] returns null and every later reference-form
    [Require] throws, and both leave the context and the record of builder
    calls as they were: the builder is not called again. (The context is
    taken to be in good order, so that releasing an instance cached for [T]
    before this [Provide] is defined.) *)
Theorem null_instance_is_cached (E : Env) (fuel : nat) (T : TypeKey)
    (body : Prog) (scope : Scope) (s s1 : State) :
  consistent s →
  Invoke E (api E fuel) T (Closure body) s = Ok None s1 →
  ∃ s2, Provide E (S fuel) T (Closure body) scope s = Ok tt s2 ∧
    m_instances (ctx s2) !! T = Some {| Handle := None; Instance_Scope := scope |} ∧
    m_factories (ctx s2) !! T =
      Some {| Factory_Builder := Closure body; Factory_Scope := scope |} ∧
    ∀ fuel',
      Require_ptr E (S fuel') T s2 = Ok None s2 ∧
      Require_ref E (S fuel') T s2 =
        Throw (type_name E T ++ not_provided_message)%string s2.
Proof.
  intros Hs Hb.
  pose proof (Invoke_builds E (api E fuel) (api_safe_fuel E fuel) T (Closure body) s Hs)
    as Hs1.
  rewrite Hb in Hs1. destruct Hs1 as [Hs1 _].
  destruct (Provide_after_Invoke E fuel T (Closure body) scope s _ _ Hb
              (consistent_releasable T s1 Hs1)) as (s2 & Hp & Hi & Hf & _).
  exists s2. repeat split; try done.
  - by rewrite (Require_ptr_cached E fuel' T s2 _ Hi).
  - unfold Require_ref, Require_ref_with.
    pose proof (Require_ptr_cached E fuel' T s2 _ Hi) as H.
    unfold Require_ptr in H. by rewrite H.
Qed.

Lemma null_instance_is_cached_witness :
  let built := record (Returned Example.Shape None) (record (Invoked Example.Shape) initial) in
  consistent initial ∧
  Invoke Example.from_left (api Example.from_left 0) Example.Shape Example.no_shape initial
    = Ok None built ∧
  ∃ s2, Provide Example.from_left 1 Example.Shape Example.no_shape Singleton initial
          = Ok tt s2 ∧
        Require_ptr Example.from_left 1 Example.Shape s2 = Ok None s2 ∧
        Require_ref Example.from_left 1 Example.Shape s2 =
          Throw "Shape is not constructible and not provided within the current context." s2.
Proof.
  intros built.
  split; [exact consistent_initial |]. split; [reflexivity |].
  destruct (null_instance_is_cached Example.from_left 0 Example.Shape Return_null
              Singleton initial built consistent_initial eq_refl) as (s2 & Hp & _ & _ & Hr).
  exists s2. split; [exact Hp |]. exact (Hr 0).
Defined.

(** C5, as the code has it. The reference form of [Require] is the pointer
    form followed by a null check: a non-null handle is returned as a
    reference, a null handle becomes an error that starts with the name of
    [T], and an error thrown inside the pointer form passes through
    unchanged. The pointer form throws nothing of its own. With an instance
    cached for [T], or with [T] neither cached, nor registered, nor
    constructible, it never throws. With a factory registered and nothing
    cached, it throws exactly when the builder of that factory, called on
    the current context, throws, and then with the same error and state.
    With [T] neither cached nor registered and constructible, it throws
    exactly when the closure [As<T>()] throws, likewise. In both cases the
    reference form throws that same error. *)
Theorem Require_ref_after_Require_ptr (E : Env) (fuel : nat) (T : TypeKey) (s : State) :
  Require_ref E fuel T s =
    match Require_ptr E fuel T s with
    | Ok (Some a) s' => Ok a s'
    | Ok None s' => Throw (type_name E T ++ not_provided_message)%string s'
    | Throw what s' => Throw what s'
    | Undefined => Undefined
    | Ill_formed message => Ill_formed message
    | OutOfFuel => OutOfFuel
    end ∧
  (∀ instance what s',
     m_instances (ctx s) !! T = Some instance →
     Require_ptr E fuel T s ≠ Throw what s') ∧
  (∀ what s',
     m_instances (ctx s) !! T = None → m_factories (ctx s) !! T = None →
     priv.Constructible (info E T) = false →
     Require_ptr E fuel T s ≠ Throw what s') ∧
  (∀ factory n what s',
     m_instances (ctx s) !! T = None → m_factories (ctx s) !! T = Some factory →
     (Require_ptr E (S n) T s = Throw what s' ↔
      Invoke E (api E n) T (Factory_Builder factory) s = Throw what s') ∧
     (Invoke E (api E n) T (Factory_Builder factory) s = Throw what s' →
      Require_ref E (S n) T s = Throw what s')) ∧
  (∀ n what s',
     m_instances (ctx s) !! T = None → m_factories (ctx s) !! T = None →
     priv.Constructible (info E T) = true →
     Require_ptr E 1 T s = OutOfFuel ∧
     (Require_ptr E (S (S n)) T s = Throw what s' ↔
      Invoke E (api E n) T As s = Throw what s') ∧
     (Invoke E (api E n) T As s = Throw what s' →
      Require_ref E (S (S n)) T s = Throw what s')).
Proof.
  assert (∀ fuel0, Require_ref E fuel0 T s =
    match Require_ptr E fuel0 T s with
    | Ok (Some a) s' => Ok a s'
    | Ok None s' => Throw (type_name E T ++ not_provided_message)%string s'
    | Throw what s' => Throw what s'
    | Undefined => Undefined
    | Ill_formed message => Ill_formed message
    | OutOfFuel => OutOfFuel
    end) as Href.
  { intros fuel0. unfold Require_ref, Require_ref_with, Require_ptr.
    destruct (require_ptr (api E fuel0) T s) as [[a|] s'| | | |]; reflexivity. }
  assert (∀ i s0 what s', assign_instance T i s0 ≠ Throw what s') as Hassign.
  { intros i s0 what s'. unfold assign_instance.
    destruct (m_instances (ctx s0) !! T) as [old|]; [| done].
    by destruct (Instance_destroy old (heap s0)). }
  split; [apply Href |]. split; [| split; [| split]].
  - intros instance what s' Hi. destruct fuel as [|n]; [done |].
    by rewrite (Require_ptr_cached E n T s instance Hi).
  - intros what s' Hi Hf HC. destruct fuel as [|n]; [done |].
    unfold Require_ptr. simpl. unfold Require_ptr_body. by rewrite Hi, Hf, HC.
  - intros factory n what s' Hi Hf.
    assert (Require_ptr E (S n) T s = Throw what s' ↔
            Invoke E (api E n) T (Factory_Builder factory) s = Throw what s') as Hiff.
    { unfold Require_ptr. simpl. unfold Require_ptr_body. rewrite Hi, Hf.
      destruct (Invoke E (api E n) T (Factory_Builder factory) s) as [r s1|w s1| | |];
        simpl; try done.
      pose proof (Hassign {| Handle := r; Instance_Scope := Local |} s1 what s') as Hne.
      destruct (assign_instance T {| Handle := r; Instance_Scope := Local |} s1)
        as [[] s2| | | |]; simpl; naive_solver. }
    split; [exact Hiff |]. intros Hb. rewrite Href. by rewrite (proj2 Hiff Hb).
  - intros n what s' Hi Hf HC. split.
    { unfold Require_ptr. simpl. unfold Require_ptr_body. rewrite Hi, Hf, HC.
      unfold Provide_default_with. by rewrite HC. }
    assert (Require_ptr E (S (S n)) T s =
            bind (Provide_body E (api E n) T As Local s) (λ _ s1, Require_ptr E (S n) T s1))
      as Heq.
    { unfold Require_ptr.
      change (require_ptr (api E (S (S n))) T s) with
        (Require_ptr_body E (api E (S n)) T s).
      unfold Require_ptr_body at 1. rewrite Hi, Hf, HC.
      unfold Provide_default_with. by rewrite HC. }
    assert (Require_ptr E (S (S n)) T s = Throw what s' ↔
            Invoke E (api E n) T As s = Throw what s') as Hiff.
    { rewrite Heq. unfold Provide_body.
      destruct (Invoke E (api E n) T As s) as [r0 s0|w0 s0| | |]; cbn [bind]; try done.
      pose proof (Hassign {| Handle := r0; Instance_Scope := Local |} s0) as Hne.
      destruct (assign_instance T {| Handle := r0; Instance_Scope := Local |} s0)
        as [[] s2|w2 s2| | |] eqn:Ha; cbn [bind]; try done.
      - apply assign_instance_inv in Ha as (Hi2 & _).
        rewrite (Require_ptr_cached E n T _ {| Handle := r0; Instance_Scope := Local |}).
        + done.
        + simpl. by rewrite Hi2, lookup_insert_eq.
      - by destruct (Hne w2 s2). }
    split; [exact Hiff |]. intros Hb. rewrite Href. by rewrite (proj2 Hiff Hb).
Qed.

Lemma Require_ref_after_Require_ptr_witness :
  let E := Example.from_left in
  let thrown := Require_ptr E 3 Example.Client initial in
  m_instances (ctx initial) !! Example.Client = None ∧
  m_factories (ctx initial) !! Example.Client = None ∧
  priv.Constructible (info E Example.Client) = true ∧
  thrown = Throw "Either is not constructible and not provided within the current context."
             (Example.after thrown) ∧
  Invoke E (api E 1) Example.Client As initial =
    Throw "Either is not constructible and not provided within the current context."
      (Example.after thrown) ∧
  Require_ref E 3 Example.Client initial =
    Throw "Either is not constructible and not provided within the current context."
      (Example.after thrown).
Proof.
  intros E thrown.
  assert (thrown =
          Throw "Either is not constructible and not provided within the current context."
            (Example.after thrown)) as H by (vm_compute; reflexivity).
  destruct (Require_ref_after_Require_ptr E 0 Example.Client initial)
    as (_ & _ & _ & _ & Hauto).
  destruct (Hauto 1 "Either is not constructible and not provided within the current context."
              (Example.after thrown) eq_refl eq_refl eq_refl) as (_ & Hiff & Href).
  split; [reflexivity |]. split; [reflexivity |]. split; [reflexivity |].
  split; [exact H |]. split; [exact (proj1 Hiff H) |]. exact (Href (proj1 Hiff H)).
Defined.

(** C5, as the specification has it, fails: [Client] is constructible from
    an [Either&], and [Either], with two one-parameter constructors that
    cannot be told apart, is neither constructible nor provided. The pointer
    form [Require<Client*>()] throws, and the reference form
    [Require<Client>()] throws an error that names [Either]. *)
Lemma Require_ptr_throws :
  priv.Constructible (Example.classes Example.Client) = true ∧
  priv.ConstructorDescriptor (Example.classes Example.Client) = [PRef Example.Either] ∧
  priv.Constructible (Example.classes Example.Either) = false ∧
  (∃ s', Require_ptr Example.from_left 3 Example.Client initial =
           Throw "Either is not constructible and not provided within the current context." s') ∧
  (∃ s', Require_ref Example.from_left 3 Example.Client initial =
           Throw "Either is not constructible and not provided within the current context." s') ∧
  ¬ (∀ E fuel T s what s', Require_ptr E fuel T s ≠ Throw what s').
Proof.
  assert (∃ s', Require_ptr Example.from_left 3 Example.Client initial =
           Throw "Either is not constructible and not provided within the current context." s')
    as Hptr by (eexists; vm_compute; reflexivity).
  repeat split; try reflexivity; try exact Hptr.
  - eexists; vm_compute; reflexivity.
  - intros Hnever. destruct Hptr as [s' H]. exact (Hnever _ _ _ _ _ _ H).
Qed.

(** C2. [CreateScope] copies a [Local] factory and not a [Singleton] one;
    it copies no [Local] instance, and copies a [Singleton] instance with
    the same handle. So in the child [Require] of a type cached as
    [Singleton] in the parent returns the parent's handle, and [Require] of
    a type registered [Local] in the parent runs the copied builder in the
    child, and what it builds is a new object, not the parent's. *)
Theorem CreateScope_inherits (E : Env) (this : Context) (h : Heap) (tr : list Event) :
  let parent := {| ctx := this; heap := h; trace := tr |} in
  let child := {| ctx := CreateScope this; heap := h; trace := tr |} in
  (∀ T factory, m_factories this !! T = Some factory →
     m_factories (CreateScope this) !! T =
       match Factory_Scope factory with Local => Some factory | Singleton => None end) ∧
  (∀ T instance, m_instances this !! T = Some instance →
     m_instances (CreateScope this) !! T =
       match Instance_Scope instance with Local => None | Singleton => Some instance end) ∧
  (∀ T, m_factories this !! T = None → m_factories (CreateScope this) !! T = None) ∧
  (∀ T, m_instances this !! T = None → m_instances (CreateScope this) !! T = None) ∧
  (∀ T1 instance fuel,
     m_instances this !! T1 = Some instance → Instance_Scope instance = Singleton →
     Require_ptr E (S fuel) T1 child = Ok (Handle instance) child ∧
     Require_ptr E (S fuel) T1 parent = Ok (Handle instance) parent) ∧
  (∀ T2 instance factory fuel,
     m_instances this !! T2 = Some instance → Instance_Scope instance = Local →
     m_factories this !! T2 = Some factory → Factory_Scope factory = Local →
     Require_ptr E (S fuel) T2 child =
       bind (Invoke E (api E fuel) T2 (Factory_Builder factory) child) (λ r s',
         bind (assign_instance T2 {| Handle := r; Instance_Scope := Local |} s') (λ _ s'',
           Ok r s'')) ∧
     ∀ r s', consistent parent →
       Require_ptr E (S fuel) T2 child = Ok (Some r) s' →
       Handle instance ≠ Some r ∧ ¬ alive r parent ∧ alive r s' ∧
       m_instances (ctx s') !! T2 = Some {| Handle := Some r; Instance_Scope := Local |}).
Proof.
  intros parent child.
  assert (∀ T factory, m_factories this !! T = Some factory →
     m_factories (CreateScope this) !! T =
       match Factory_Scope factory with Local => Some factory | Singleton => None end) as HF.
  { intros T factory Hf. simpl. rewrite lookup_clone_entries, Hf. simpl.
    unfold Factory_Clone. by destruct factory as [b []]. }
  assert (∀ T instance, m_instances this !! T = Some instance →
     m_instances (CreateScope this) !! T =
       match Instance_Scope instance with Local => None | Singleton => Some instance end) as HI.
  { intros T instance Hi. simpl. rewrite lookup_clone_entries, Hi. simpl.
    unfold Instance_Clone. by destruct instance as [r []]. }
  split; [exact HF |]. split; [exact HI |].
  split; [intros T Hf; simpl; by rewrite lookup_clone_entries, Hf |].
  split; [intros T Hi; simpl; by rewrite lookup_clone_entries, Hi |].
  split.
  - intros T1 instance fuel Hi Hs. split.
    + apply Require_ptr_cached. simpl ctx. rewrite (HI _ _ Hi). by rewrite Hs.
    + by apply Require_ptr_cached.
  - intros T2 instance factory fuel Hi Hs Hf Hfs.
    assert (Require_ptr E (S fuel) T2 child =
       bind (Invoke E (api E fuel) T2 (Factory_Builder factory) child) (λ r s',
         bind (assign_instance T2 {| Handle := r; Instance_Scope := Local |} s') (λ _ s'',
           Ok r s''))) as Heq.
    { unfold Require_ptr. simpl require_ptr. unfold Require_ptr_body. simpl ctx.
      rewrite (HI _ _ Hi), Hs, (HF _ _ Hf), Hfs. reflexivity. }
    split; [exact Heq |]. intros r s' Hparent Hreq.
    assert (consistent child) as Hchild by by apply consistent_CreateScope.
    pose proof (proj1 (api_safe_fuel E (S fuel)) T2 child Hchild) as Hs'.
    unfold Require_ptr in Hreq. rewrite Hreq in Hs'. simpl in Hs'.
    fold (Require_ptr E (S fuel) T2 child) in Hreq. rewrite Heq in Hreq.
    pose proof (Invoke_fresh E (api E fuel) (api_grows_fuel E fuel) T2
                  (Factory_Builder factory) child) as Hfresh.
    destruct (Invoke E (api E fuel) T2 (Factory_Builder factory) child)
      as [[r0|] s1| | | |]; simpl in Hreq; try done.
    + destruct (assign_instance T2 _ s1) as [[] s2| | | |] eqn:Has; simpl in Hreq; try done.
      injection Hreq as <- <-. simpl in Hfresh.
      apply assign_instance_inv in Has as (Hi2 & _).
      assert (m_instances (ctx s2) !! T2 =
              Some {| Handle := Some r0; Instance_Scope := Local |}) as Hstored
        by by rewrite Hi2, lookup_insert_eq.
      assert (¬ alive r0 parent) as Hnew.
      { intros Halive. apply (alive_below_next parent Hparent) in Halive.
        simpl in Halive. lia. }
      split; [| split; [exact Hnew | split; [| exact Hstored]]].
      * intros Ha. apply Hnew, (held_alive parent Hparent). by exists T2, instance.
      * apply (held_alive s2 Hs'). by eexists T2, _.
    + by destruct (assign_instance T2 _ s1) as [[] s2| | | |].
Qed.

Lemma CreateScope_inherits_witness :
  let parent := Example.parent in
  let child := Example.in_child Example.parent in
  Require_ptr Example.from_left 1 Example.Shape parent = Ok (Some 1) parent ∧
  Require_ptr Example.from_left 1 Example.Shape child = Ok (Some 1) child ∧
  Require_ptr Example.from_left 1 Example.Logger parent = Ok (Some 0) parent ∧
  consistent parent ∧
  ∃ s', Require_ptr Example.from_left 1 Example.Logger child = Ok (Some 2) s' ∧
        Some 0 ≠ Some 2 ∧ ¬ alive 2 parent ∧ alive 2 s'.
Proof.
  pose proof (CreateScope_inherits Example.from_left (ctx Example.parent)
                (heap Example.parent) (trace Example.parent)) as H.
  destruct H as (_ & _ & _ & _ & Hsingleton & Hlocal).
  destruct (Hsingleton Example.Shape {| Handle := Some 1; Instance_Scope := Singleton |} 0
              eq_refl eq_refl) as [Hchild Hparent].
  destruct (Hlocal Example.Logger {| Handle := Some 0; Instance_Scope := Local |}
              {| Factory_Builder := As; Factory_Scope := Local |} 0
              eq_refl eq_refl eq_refl eq_refl) as [Hbuild Hdistinct].
  split; [exact Hparent |]. split; [exact Hchild |].
  split; [vm_compute; reflexivity |].
  assert (consistent Example.parent) as Hgood.
  { pose proof (proj2 (api_safe_fuel Example.from_left 1) Example.Logger As Local initial
                  consistent_initial) as H1.
    exact (proj2 (api_safe_fuel Example.from_left 1) Example.Shape Example.make_shape
             Singleton Example.with_logger H1). }
  split; [exact Hgood |].
  exists (Example.after (Require_ptr Example.from_left 1 Example.Logger
                           (Example.in_child Example.parent))).
  assert (Require_ptr Example.from_left 1 Example.Logger (Example.in_child Example.parent) =
          Ok (Some 2) (Example.after (Require_ptr Example.from_left 1 Example.Logger
                                        (Example.in_child Example.parent)))) as Hreq
    by (vm_compute; reflexivity).
  split; [exact Hreq |].
  destruct (Hdistinct 2 _ Hgood Hreq) as (Hne & Hnew & Halive & _). done.
Defined.

(** ** Ownership *)

(** C3 fails on the code. The [Handle] of a cloned instance is a second
    [std::unique_ptr] to the object the parent's [Handle] owns, so every
    singleton a child inherits is held, as an owner, by the parent's slot
    and by the child's. With [Shape] registered as a singleton in a root
    context in good order, at address 1: destroying the child scope deletes
    the parent's singleton, and destroying the parent afterwards deletes it
    a second time. *)
Theorem inherited_singleton_is_owned_twice :
  (∀ this h tr T instance a,
     m_instances this !! T = Some instance →
     Instance_Scope instance = Singleton → Handle instance = Some a →
     held a {| ctx := this; heap := h; trace := tr |} ∧
     held a {| ctx := CreateScope this; heap := h; trace := tr |}) ∧
  (let parent := ctx Example.parent in
   let child := CreateScope parent in
   consistent Example.parent ∧
   m_instances parent !! Example.Shape =
     Some {| Handle := Some 1; Instance_Scope := Singleton |} ∧
   m_instances child !! Example.Shape =
     Some {| Handle := Some 1; Instance_Scope := Singleton |} ∧
   alive 1 Example.parent ∧
   ∃ h', destroy child (heap Example.parent) = Some h' ∧
         objects h' !! 1 = None ∧
         destroy parent h' = None).
Proof.
  split.
  - intros this h tr T instance a Hi Hs Ha. split.
    + by exists T, instance.
    + exists T, instance. split; [| done]. simpl.
      rewrite lookup_clone_entries, Hi. destruct instance as [r scope].
      simpl in *. unfold Instance_Clone. simpl. by rewrite Hs.
  - split.
    { pose proof (proj2 (api_safe_fuel Example.from_left 1) Example.Logger As Local initial
                    consistent_initial) as H1.
      exact (proj2 (api_safe_fuel Example.from_left 1) Example.Shape Example.make_shape
               Singleton Example.with_logger H1). }
    split; [vm_compute; reflexivity |]. split; [vm_compute; reflexivity |].
    split; [vm_compute; eauto |].
    eexists. repeat split; vm_compute; reflexivity.
Qed.

(** ** Order of resolution *)

Section Order.

Variable E : Env.
Variable rec : Api.
Variable Tuple : list Param.

Lemma eval_arguments_resolved (order : list nat) :
  (∀ i, i ∈ order → i < length Tuple) →
  ∀ values0 s values' s',
    eval_arguments E rec Tuple order values0 s = Ok values' s' ↔
    ∃ values, values' = values0 ++ values ∧ resolved_in_order E rec Tuple order s values s'.
Proof.
  induction order as [|i order IH]; intros Hin values0 s values' s'.
  - simpl. split.
    + intros [= <- <-]. exists []. split; [by rewrite app_nil_r | constructor].
    + intros (values & -> & H). inversion H; subst. by rewrite app_nil_r.
  - assert (is_Some (Tuple !! i)) as [p Hp]
      by (apply lookup_lt_is_Some, Hin; left).
    assert (∀ j, j ∈ order → j < length Tuple) as Hin'
      by (intros j Hj; apply Hin; by right).
    simpl. rewrite Hp. split.
    + destruct (BuildParameter E rec p s) as [v s1| | | |] eqn:Hb; simpl; try done.
      intros H. apply (IH Hin') in H as (values & -> & H).
      exists ((i, v) :: values). split; [by rewrite <- app_assoc |].
      by econstructor.
    + intros (values & -> & H). inversion H as [|? p' v ? ? s1 ? values' Hp' Hb Hrest]; subst.
      rewrite Hp in Hp'. injection Hp' as <-. rewrite Hb. simpl.
      apply (IH Hin'). exists values'. split; [by rewrite <- app_assoc | done].
Qed.

Lemma resolved_positions order s values s' :
  resolved_in_order E rec Tuple order s values s' → values.*1 = order.
Proof. induction 1; simpl; [done | by f_equal]. Qed.

End Order.

Lemma value_at_unique (values : list (nat * Arg)) (i : nat) (v : Arg) :
  NoDup (values.*1) → (i, v) ∈ values → value_at values i = Some v.
Proof.
  unfold value_at. induction values as [|[j w] values IH]; intros Hnd Hin.
  - by apply elem_of_nil in Hin.
  - simpl in *. apply NoDup_cons in Hnd as [Hj Hnd].
    apply elem_of_cons in Hin as [[= <- <-]|Hin].
    + by rewrite Nat.eqb_refl.
    + destruct (j =? i) eqn:Heq.
      * apply Nat.eqb_eq in Heq as ->. exfalso. apply Hj.
        apply list_elem_of_fmap. by exists (i, v).
      * by apply IH.
Qed.

Lemma lookup_omap_total {A B : Type} (f : A → option B) (l : list A) :
  (∀ x, x ∈ l → is_Some (f x)) →
  length (omap f l) = length l ∧ ∀ i, omap f l !! i = l !! i ≫= f.
Proof.
  induction l as [|x l IH]; intros Hall; [done |].
  destruct (Hall x) as [y Hy]; [by left |].
  destruct IH as [Hlen Hlook]; [intros; apply Hall; by right |].
  simpl. rewrite Hy. simpl. split; [f_equal; exact Hlen |].
  intros [|i]; simpl; [done | apply Hlook].
Qed.

(** The tuple [BuildParameters] returns, from the values resolved. *)
Lemma tuple_of_values (n : nat) (order : list nat) (values : list (nat * Arg)) :
  order ≡ₚ seq 0 n → values.*1 = order →
  ∀ args, args = omap (value_at values) (seq 0 n) ↔
          length args = n ∧ ∀ i v, (i, v) ∈ values → args !! i = Some v.
Proof.
  intros Hperm Hpos.
  assert (NoDup (values.*1)) as Hnd.
  { rewrite Hpos, Hperm. apply NoDup_seq. }
  assert (∀ i, i < n → ∃ v, (i, v) ∈ values) as Hall.
  { intros i Hi. assert (i ∈ values.*1) as Hin.
    { rewrite Hpos, Hperm. apply elem_of_seq. lia. }
    apply list_elem_of_fmap in Hin as ([j v] & -> & Hin). eauto. }
  assert (∀ i v, (i, v) ∈ values → i < n) as Hbound.
  { intros i v Hin. assert (i ∈ values.*1) as Hi.
    { apply list_elem_of_fmap. by exists (i, v). }
    rewrite Hpos, Hperm in Hi. apply elem_of_seq in Hi. lia. }
  destruct (lookup_omap_total (value_at values) (seq 0 n)) as [Hlen Hlook].
  { intros i Hi. apply elem_of_seq in Hi. destruct (Hall i) as [v Hv]; [lia |].
    rewrite (value_at_unique values i v Hnd Hv). eauto. }
  rewrite length_seq in Hlen.
  intros args. split.
  - intros ->. split; [done |]. intros i v Hin.
    rewrite Hlook, lookup_seq_lt by eauto. simpl. by apply value_at_unique.
  - intros [Hargs Hval]. apply list_eq. intros i. rewrite Hlook.
    destruct (decide (i < n)) as [Hi|Hi].
    + rewrite lookup_seq_lt by done. simpl. destruct (Hall i Hi) as [v Hv].
      by rewrite (Hval i v Hv), (value_at_unique values i v Hnd Hv).
    + rewrite lookup_seq_ge by lia. simpl. apply lookup_ge_None. lia.
Qed.

(** C9, as the code has it. The closure [As<T>()] resolves the parameters
    of the deduced signature one at a time, each resolution complete before
    the next starts, in the order in which the build evaluates the
    arguments of a call, whatever that order is; the object is then
    constructed from the values in declared order. *)
Theorem parameters_resolved_one_at_a_time (E : Env) (rec : Api) (T : TypeKey) (s : State) :
  let Tuple := priv.ConstructorDescriptor (info E T) in
  arg_order E (length Tuple) ≡ₚ seq 0 (length Tuple) →
  ∀ r s'', As_closure E rec T s = Ok r s'' ↔
    ∃ values args s',
      resolved_in_order E rec Tuple (arg_order E (length Tuple)) s values s' ∧
      length args = length Tuple ∧
      (∀ i v, (i, v) ∈ values → args !! i = Some v) ∧
      r = Some (next (heap s')) ∧
      s'' = (make_unique {| obj_type := T; obj_args := args |} s').2.
Proof.
  intros Tuple Hperm r s''. unfold As_closure, BuildParameters. fold Tuple.
  assert (∀ i, i ∈ arg_order E (length Tuple) → i < length Tuple) as Hin.
  { intros i Hi. rewrite Hperm in Hi. apply elem_of_seq in Hi. lia. }
  split.
  - destruct (eval_arguments E rec Tuple _ [] s) as [values0 s'| | | |] eqn:He; simpl;
      try discriminate.
    intros [= <- <-].
    apply (eval_arguments_resolved E rec Tuple _ Hin) in He as (values & -> & Hres).
    pose proof (resolved_positions _ _ _ _ _ _ _ Hres) as Hpos.
    destruct (proj1 (tuple_of_values _ _ values Hperm Hpos _) eq_refl) as [Hlen Hval].
    exists values, (omap (value_at values) (seq 0 (length Tuple))), s'.
    done.
  - intros (values & args & s' & Hres & Hlen & Hval & -> & ->).
    pose proof (resolved_positions _ _ _ _ _ _ _ Hres) as Hpos.
    assert (eval_arguments E rec Tuple (arg_order E (length Tuple)) [] s = Ok values s') as He
      by (apply (eval_arguments_resolved E rec Tuple _ Hin); eauto).
    rewrite He. simpl.
    by rewrite <- (proj2 (tuple_of_values _ _ values Hperm Hpos args) (conj Hlen Hval)).
Qed.

Lemma parameters_resolved_one_at_a_time_witness :
  let E := Example.from_right in
  let Tuple := priv.ConstructorDescriptor (info E Example.Service) in
  arg_order E (length Tuple) ≡ₚ seq 0 (length Tuple) ∧
  ∃ s'' values s',
    As_closure E (api E 6) Example.Service initial = Ok (Some 2) s'' ∧
    resolved_in_order E (api E 6) Tuple [1; 0] initial values s' ∧
    trace s' = trace s''.
Proof.
  intros E Tuple.
  assert (arg_order E (length Tuple) ≡ₚ seq 0 (length Tuple)) as Hperm.
  { change ([1; 0] ≡ₚ [0; 1]). apply Permutation_swap. }
  split; [exact Hperm |].
  set (built := Example.after (As_closure E (api E 6) Example.Service initial)).
  destruct (proj1 (parameters_resolved_one_at_a_time E (api E 6) Example.Service initial
                     Hperm (Some 2) built))
    as (values & args & s' & Hres & _ & _ & _ & Hs'').
  { vm_compute. reflexivity. }
  exists built, values, s'.
  split; [vm_compute; reflexivity |]. split; [exact Hres |]. by rewrite Hs''.
Defined.

(** C9, as the specification has it, fails for a build that evaluates call
    arguments from the right, as the language allows. [Service] is declared
    with the parameters [(Logger&, Config&)]; its construction resolves
    [Config] first, and [Logger] inside that. No resolution of the two
    parameters in declared order ends with the same record of builder
    calls. *)
Lemma parameters_resolved_from_the_right :
  let E := Example.from_right in
  let Tuple := priv.ConstructorDescriptor (info E Example.Service) in
  Tuple = [PRef Example.Logger; PRef Example.Config] ∧
  arg_order E (length Tuple) ≡ₚ seq 0 (length Tuple) ∧
  ∃ s'', As_closure E (api E 6) Example.Service initial = Ok (Some 2) s'' ∧
    trace s'' = [Invoked Example.Config; Invoked Example.Logger;
                 Returned Example.Logger (Some 0); Returned Example.Config (Some 1)] ∧
    ¬ ∃ values s',
        resolved_in_order E (api E 6) Tuple (left_to_right (length Tuple)) initial values s' ∧
        trace s' = trace s''.
Proof.
  intros E Tuple. split; [reflexivity |].
  split; [change ([1; 0] ≡ₚ [0; 1]); apply Permutation_swap |].
  exists (Example.after (As_closure E (api E 6) Example.Service initial)).
  split; [vm_compute; reflexivity |]. split; [vm_compute; reflexivity |].
  intros (values & s' & Hres & Htrace).
  change (left_to_right (length Tuple)) with [0; 1] in Hres.
  inversion Hres as [|? p0 v0 ? ? s1 ? values0 Hp0 Hb0 Hres0]; subst.
  injection Hp0 as <-.
  pose proof (BuildParameter_grows E (api E 6) (api_grows_fuel E 6)
                (PRef Example.Logger) initial) as Hg0.
  rewrite Hb0 in Hg0. destruct Hg0 as [_ [t0 Ht0]].
  assert (trace s1 = [Invoked Example.Logger; Returned Example.Logger (Some 0)]) as Hs1.
  { revert Hb0. vm_compute. intros [= <- <-]. reflexivity. }
  inversion Hres0 as [|? p1 v1 ? ? s2 ? values1 Hp1 Hb1 Hres1]; subst.
  pose proof (BuildParameter_grows E (api E 6) (api_grows_fuel E 6) p1 s1) as Hg1.
  rewrite Hb1 in Hg1. destruct Hg1 as [_ [t1 Ht1]].
  inversion Hres1; subst.
  rewrite Ht1, Hs1 in Htrace. revert Htrace. vm_compute. discriminate.
Qed.

(** * Further properties *)

(** ** The probe recursion *)

(** X1. The recursion over the number of placeholders always ends at or
    below 100: every arity below the one returned was rejected, and the one
    returned was accepted, unless it is 100 and no arity from 0 to 100 was
    accepted at all. *)
Theorem GetConstructorParameterCount_spec (ti : TypeInfo) :
  priv.GetConstructorParameterCount ti ≤ priv.MaxParameterCount ∧
  (∀ b, b < priv.GetConstructorParameterCount ti → probe ti b = false) ∧
  (probe ti (priv.GetConstructorParameterCount ti) = true ∨
   (priv.GetConstructorParameterCount ti = priv.MaxParameterCount ∧
    ∀ b, b ≤ priv.MaxParameterCount → probe ti b = false)).
Proof.
  unfold priv.GetConstructorParameterCount.
  destruct (least_accepted_below (probe ti) (S priv.MaxParameterCount))
    as [Hnone|(a & Hlt & Ha & Hleast)].
  - rewrite count_at_none; [| lia | lia | intros; apply Hnone; lia].
    split; [lia |]. split; [intros; apply Hnone; lia |].
    right. split; [done |]. intros; apply Hnone; lia.
  - rewrite (count_at_first (probe ti) a Ha); [| lia | lia | lia | intros; apply Hleast; lia].
    split; [lia |]. split; [done |]. by left.
Qed.

(** X2. A class that is not default-constructible and whose shortest
    unambiguous constructor takes exactly 100 parameters has its signature
    deduced, with 100 elements, and still is not constructible: the trait
    asks for a count below 100. *)
Theorem arity_100_is_not_Constructible (ti : TypeInfo) :
  is_default_constructible ti = false →
  probe ti priv.MaxParameterCount = true →
  (∀ b, b < priv.MaxParameterCount → probe ti b = false) →
  priv.GetConstructorParameterCount ti = priv.MaxParameterCount ∧
  length (priv.ConstructorDescriptor ti) = priv.MaxParameterCount ∧
  priv.Constructible ti = false.
Proof.
  intros Hdef Hmax Hbelow.
  assert (priv.GetConstructorParameterCount ti = priv.MaxParameterCount) as Hcount.
  { unfold priv.GetConstructorParameterCount.
    apply count_at_first; [done | lia | lia | lia |]. intros; apply Hbelow; lia. }
  split; [done |]. split.
  - unfold priv.ConstructorDescriptor. by rewrite length_map, length_seq.
  - unfold priv.Constructible. rewrite Hdef, Hcount, Nat.ltb_irrefl.
    by destruct (is_abstract ti).
Qed.

Lemma arity_100_is_not_Constructible_witness :
  let huge := priv.class_info Example.Widget false [replicate 100 (PRef Example.Logger)] in
  is_default_constructible huge = false ∧
  probe huge priv.MaxParameterCount = true ∧
  priv.GetConstructorParameterCount huge = 100 ∧
  priv.Constructible huge = false.
Proof.
  intros huge.
  assert (∀ b, b < priv.MaxParameterCount → probe huge b = false) as Hbelow.
  { intros b Hb. unfold huge, priv.class_info, priv.probe_of_ctors. cbn [probe negb andb].
    rewrite filter_cons, filter_nil. case_decide as H; [| done]. exfalso.
    unfold priv.viable in H. rewrite length_replicate in H.
    apply andb_true_iff in H as [H _]. apply Nat.eqb_eq in H.
    unfold priv.MaxParameterCount in Hb. lia. }
  destruct (arity_100_is_not_Constructible huge eq_refl eq_refl Hbelow) as (Hc & _ & HC).
  split; [reflexivity |]. split; [reflexivity |]. split; [exact Hc | exact HC].
Defined.

(** ** Handles and the objects behind them *)

(** X3. In a context in good order, neither [Require] nor [Provide] deletes
    an object twice, both leave the context in good order whether they
    return or throw, and a non-null handle that [Require] returns is held by
    the instance cached for [T] and points to a live object. *)
Theorem Require_returns_live_handles (E : Env) (fuel : nat) (T : TypeKey) (s : State) :
  consistent s →
  (Require_ptr E fuel T s ≠ Undefined ∧
   (∀ what s', Require_ptr E fuel T s = Throw what s' → consistent s') ∧
   (∀ h s', Require_ptr E fuel T s = Ok h s' →
      consistent s' ∧
      ∀ a, h = Some a →
        alive a s' ∧ ∃ instance, m_instances (ctx s') !! T = Some instance ∧
                                 Handle instance = Some a)) ∧
  (∀ builder scope,
     Provide E fuel T builder scope s ≠ Undefined ∧
     (∀ what s', Provide E fuel T builder scope s = Throw what s' → consistent s') ∧
     (∀ s', Provide E fuel T builder scope s = Ok tt s' → consistent s')).
Proof.
  intros Hs. destruct (api_safe_fuel E fuel) as [Hr Hp]. split.
  - specialize (Hr T s Hs). unfold Require_ptr.
    split; [intros Hu; by rewrite Hu in Hr |].
    split; [intros what s' Ht; by rewrite Ht in Hr |].
    intros h s' Hok. rewrite Hok in Hr. simpl in Hr. split; [exact Hr |].
    intros a ->.
    destruct (Require_ptr_returns E fuel T s (Some a) s' Hok)
      as [(instance & Hi & Ha)|(_ & [=] & _)].
    split; [| eauto]. apply (held_alive s' Hr). by exists T, instance.
  - intros builder scope. specialize (Hp T builder scope s Hs). unfold Provide.
    split; [intros Hu; by rewrite Hu in Hp |].
    split; [intros what s' Ht; by rewrite Ht in Hp |].
    intros s' Hok. by rewrite Hok in Hp.
Qed.

Lemma Require_returns_live_handles_witness :
  consistent initial ∧
  ∃ s', Require_ptr Example.from_left 9 Example.Service initial = Ok (Some 2) s' ∧
        consistent s' ∧ alive 2 s'.
Proof.
  split; [exact consistent_initial |].
  set (s' := Example.after (Require_ptr Example.from_left 9 Example.Service initial)).
  assert (Require_ptr Example.from_left 9 Example.Service initial = Ok (Some 2) s') as Hok
    by (vm_compute; reflexivity).
  destruct (Require_returns_live_handles Example.from_left 9 Example.Service initial
              consistent_initial) as [(_ & _ & H) _].
  destruct (H _ _ Hok) as [Hs' Ha]. destruct (Ha 2 eq_refl) as [Halive _].
  exists s'. done.
Defined.

(** X4. What [Provide] registers, [Require] gives back: in a context in good
    order, after [Provide<T>(builder, scope)] whose builder returned [r],
    the pointer form of [Require] returns [r] and changes nothing, and when
    [r] is not null the reference form returns it too, and the object is
    alive. *)
Theorem Provide_then_Require (E : Env) (fuel fuel' : nat) (T : TypeKey)
    (builder : Builder) (scope : Scope) (s : State) (r : option addr) (s' : State) :
  consistent s →
  Invoke E (api E fuel) T builder s = Ok r s' →
  ∃ s'', Provide E (S fuel) T builder scope s = Ok tt s'' ∧
    Require_ptr E (S fuel') T s'' = Ok r s'' ∧
    ∀ a, r = Some a → Require_ref E (S fuel') T s'' = Ok a s'' ∧ alive a s''.
Proof.
  intros Hs Hb.
  pose proof (Invoke_builds E (api E fuel) (api_safe_fuel E fuel) T builder s Hs) as Hs'.
  rewrite Hb in Hs'. destruct Hs' as [Hs' _].
  destruct (Provide_after_Invoke E fuel T builder scope s r s' Hb
              (consistent_releasable T s' Hs')) as (s'' & Hp & Hi & _).
  pose proof (Require_ptr_cached E fuel' T s'' _ Hi) as Hreq. simpl in Hreq.
  exists s''. split; [exact Hp |]. split; [exact Hreq |].
  intros a ->. split.
  - unfold Require_ref, Require_ref_with. unfold Require_ptr in Hreq. by rewrite Hreq.
  - pose proof (proj2 (api_safe_fuel E (S fuel)) T builder scope s Hs) as Hsafe.
    unfold Provide in Hp. rewrite Hp in Hsafe.
    apply (held_alive s'' Hsafe). by eexists T, _.
Qed.

Lemma Provide_then_Require_witness :
  consistent initial ∧
  ∃ s' s'',
    Invoke Example.from_left (api Example.from_left 0) Example.Shape Example.make_shape initial
      = Ok (Some 0) s' ∧
    Provide Example.from_left 1 Example.Shape Example.make_shape Local initial = Ok tt s'' ∧
    Require_ref Example.from_left 1 Example.Shape s'' = Ok 0 s''.
Proof.
  split; [exact consistent_initial |].
  set (s' := Example.after (Invoke Example.from_left (api Example.from_left 0) Example.Shape
                              Example.make_shape initial)).
  assert (Invoke Example.from_left (api Example.from_left 0) Example.Shape Example.make_shape
            initial = Ok (Some 0) s') as Hb by (vm_compute; reflexivity).
  destruct (Provide_then_Require Example.from_left 0 0 Example.Shape Example.make_shape Local
              initial (Some 0) s' consistent_initial Hb) as (s'' & Hp & _ & Hr).
  exists s', s''. split; [exact Hb |]. split; [exact Hp |]. exact (proj1 (Hr 0 eq_refl)).
Defined.

(** X5. Registering [T] again destroys the instance cached for [T] at that
    moment: the object it owned is deleted, so that a handle an earlier
    [Require] returned dangles, and the new instance holds what the new
    builder returned, which is another object. *)
Theorem Provide_releases_replaced (E : Env) (fuel : nat) (T : TypeKey)
    (builder : Builder) (scope : Scope) (s : State) (r : option addr) (s' : State)
    (old : Instance) (a : addr) :
  consistent s →
  Invoke E (api E fuel) T builder s = Ok r s' →
  m_instances (ctx s') !! T = Some old → Handle old = Some a →
  ∃ s'', Provide E (S fuel) T builder scope s = Ok tt s'' ∧
    alive a s' ∧ ¬ alive a s'' ∧ r ≠ Some a ∧
    m_instances (ctx s'') !! T = Some {| Handle := r; Instance_Scope := scope |}.
Proof.
  intros Hs Hb Hold Ha.
  pose proof (Invoke_builds E (api E fuel) (api_safe_fuel E fuel) T builder s Hs) as Hs'.
  rewrite Hb in Hs'. destruct Hs' as [Hs' Hr].
  assert (held a s') as Hheld by by exists T, old.
  destruct (held_alive s' Hs' a Hheld) as [o Ho].
  unfold Provide. simpl. unfold Provide_body. rewrite Hb. simpl.
  unfold assign_instance. rewrite Hold. unfold Instance_destroy, delete. rewrite Ha, Ho.
  simpl. eexists. split; [reflexivity |].
  split; [by exists o |]. split; [| split].
  - unfold alive. simpl. rewrite lookup_delete_eq. by intros [? ?].
  - intros ->. by destruct (Hr a eq_refl) as [_ Hunheld].
  - simpl. by rewrite lookup_insert_eq.
Qed.

Lemma Provide_releases_replaced_witness :
  let first := Example.after (Provide Example.from_left 1 Example.Shape Example.make_shape
                                Local initial) in
  consistent first ∧
  Require_ptr Example.from_left 1 Example.Shape first = Ok (Some 0) first ∧
  ∃ s'', Provide Example.from_left 1 Example.Shape Example.make_shape Local first = Ok tt s'' ∧
         ¬ alive 0 s'' ∧
         Require_ptr Example.from_left 1 Example.Shape s'' = Ok (Some 1) s''.
Proof.
  intros first.
  assert (consistent first) as Hfirst
    by exact (proj2 (api_safe_fuel Example.from_left 1) Example.Shape Example.make_shape
                Local initial consistent_initial).
  split; [exact Hfirst |]. split; [vm_compute; reflexivity |].
  set (s' := Example.after (Invoke Example.from_left (api Example.from_left 0) Example.Shape
                              Example.make_shape first)).
  assert (Invoke Example.from_left (api Example.from_left 0) Example.Shape Example.make_shape
            first = Ok (Some 1) s') as Hb by (vm_compute; reflexivity).
  destruct (Provide_releases_replaced Example.from_left 0 Example.Shape Example.make_shape
              Local first (Some 1) s' {| Handle := Some 0; Instance_Scope := Local |} 0
              Hfirst Hb eq_refl eq_refl) as (s'' & Hp & _ & Hdead & _ & Hi).
  exists s''. split; [exact Hp |]. split; [exact Hdead |].
  exact (Require_ptr_cached Example.from_left 0 Example.Shape s'' _ Hi).
Defined.

(** What [Provide] stores is what its builder returned. *)
Lemma Provide_returns E fuel T b scope s s1 :
  Provide E (S fuel) T b scope s = Ok tt s1 →
  ∃ r s0, Invoke E (api E fuel) T b s = Ok r s0 ∧
    m_instances (ctx s1) !! T = Some {| Handle := r; Instance_Scope := scope |} ∧
    m_factories (ctx s1) !! T = Some {| Factory_Builder := b; Factory_Scope := scope |}.
Proof.
  unfold Provide. simpl. unfold Provide_body.
  destruct (Invoke E (api E fuel) T b s) as [r s0| | | |]; simpl; try done.
  destruct (assign_instance T _ s0) as [[] s2| | | |] eqn:Ha; simpl; try done.
  intros [= <-]. apply assign_instance_inv in Ha as (Hi & _). exists r, s0.
  split; [done |]. simpl. by rewrite Hi, !lookup_insert_eq.
Qed.

(** The closure [As<T>()] returns a new object or does not return. *)
Lemma As_returns_object E rec T s r s' :
  Invoke E rec T As s = Ok r s' → ∃ a, r = Some a.
Proof.
  unfold Invoke, As_closure.
  destruct (BuildParameters E rec _ _) as [args s1| | | |]; simpl; try done.
  intros [= <- <-]. eauto.
Qed.

(** X6. Automatic construction never yields a null handle: when [T] is
    constructible and neither cached nor registered, a [Require] that
    returns has run the closure [As<T>()], whose return is on record,
    returns the non-null handle it built, and has registered [T] with that
    closure and cached the instance, both [Local]. *)
Theorem auto_wired_handle_is_not_null (E : Env) (fuel : nat) (T : TypeKey)
    (s : State) (h : option addr) (s' : State) :
  m_instances (ctx s) !! T = None →
  m_factories (ctx s) !! T = None →
  priv.Constructible (info E T) = true →
  Require_ptr E fuel T s = Ok h s' →
  ∃ a, h = Some a ∧
    m_instances (ctx s') !! T = Some {| Handle := Some a; Instance_Scope := Local |} ∧
    m_factories (ctx s') !! T = Some {| Factory_Builder := As; Factory_Scope := Local |} ∧
    In (Returned T (Some a)) (trace s').
Proof.
  intros Hi Hf HC. destruct fuel as [|n]; [done |].
  unfold Require_ptr. simpl. unfold Require_ptr_body. rewrite Hi, Hf, HC.
  unfold Provide_default_with. rewrite HC.
  destruct (provide (api E n) T As Local s) as [[] s1| | | |] eqn:Hp; simpl; try done.
  destruct n as [|n]; [done |].
  destruct (Provide_returns E n T As Local s s1 Hp) as (r & s0 & Hb & Hi1 & Hf1).
  destruct (As_returns_object E (api E n) T s r s0 Hb) as [a ->].
  simpl. unfold Require_ptr_body. rewrite Hi1. intros [= <- <-].
  exists a. do 3 (split; [done |]).
  destruct (Invoke_trace E (api E n) (api_grows_fuel E n) T As s (Some a) s0 Hb)
    as [inner Ht].
  pose proof (Provide_body_grows E (api E n) (api_grows_fuel E n) T As Local s) as Hg.
  simpl in Hp. rewrite Hp in Hg. simpl in Hg.
  revert Hp. unfold Provide_body. rewrite Hb. simpl.
  destruct (assign_instance T _ s0) as [[] s2| | | |] eqn:Ha; simpl; try done.
  intros [= <-]. apply assign_instance_inv in Ha as (_ & _ & Ht2 & _). simpl.
  rewrite Ht2, Ht. apply in_or_app. right. right. apply in_or_app. right. by left.
Qed.

Lemma auto_wired_handle_is_not_null_witness :
  m_instances (ctx initial) !! Example.Config = None ∧
  m_factories (ctx initial) !! Example.Config = None ∧
  priv.Constructible (info Example.from_left Example.Config) = true ∧
  ∃ s', Require_ptr Example.from_left 9 Example.Config initial = Ok (Some 1) s' ∧
        m_instances (ctx s') !! Example.Config =
          Some {| Handle := Some 1; Instance_Scope := Local |}.
Proof.
  split; [reflexivity |]. split; [reflexivity |]. split; [reflexivity |].
  set (s' := Example.after (Require_ptr Example.from_left 9 Example.Config initial)).
  assert (Require_ptr Example.from_left 9 Example.Config initial = Ok (Some 1) s') as Hok
    by (vm_compute; reflexivity).
  destruct (auto_wired_handle_is_not_null Example.from_left 9 Example.Config initial
              (Some 1) s' eq_refl eq_refl eq_refl Hok) as (a & [= <-] & Hi & _).
  exists s'. done.
Defined.

(** ** What a context never loses *)

Lemma steady_refl s : steady s s.
Proof. by split. Qed.

Lemma steady_trans s1 s2 s3 : steady s1 s2 → steady s2 s3 → steady s1 s3.
Proof. intros [[Hi1 Hf1] Hb1] [[Hi2 Hf2] Hb2]. split; [split |]; eauto. Qed.

Lemma steady_record e s : steady s (record e s).
Proof. by split. Qed.

Lemma steady_make_unique o s : steady s (make_unique o s).2.
Proof. by split. Qed.

Lemma steady_assign T i s u s' : assign_instance T i s = Ok u s' → steady s s'.
Proof.
  intros H. apply assign_instance_inv in H as (Hi & Hf & _).
  assert (∀ U, is_Some (m_instances (ctx s) !! U) → is_Some (m_instances (ctx s') !! U))
    as Hkeep.
  { intros U HU. rewrite Hi. destruct (decide (T = U)) as [<-|Hne].
    - rewrite lookup_insert_eq. eauto.
    - by rewrite lookup_insert_ne. }
  split; [split; [exact Hkeep | by rewrite Hf] |].
  intros Hb U f HU Hs. rewrite Hf in HU. apply Hkeep. by apply (Hb U f).
Qed.

(** The two stores of [Provide]: the factory goes in once the instance is
    in place. *)
Lemma steady_store T i f s u s' :
  assign_instance T i s = Ok u s' → steady s (set_factory T f s').
Proof.
  intros H. destruct (steady_assign T i s u s' H) as [[Hki Hkf] Hb].
  apply assign_instance_inv in H as (Hi & Hf & _).
  split; [split |].
  - exact Hki.
  - intros U HU. simpl. destruct (decide (T = U)) as [<-|Hne].
    + rewrite lookup_insert_eq. eauto.
    + rewrite lookup_insert_ne by done. by apply Hkf.
  - intros Hs U g. simpl. destruct (decide (T = U)) as [<-|Hne].
    + intros _ _. rewrite Hi, lookup_insert_eq. eauto.
    + rewrite lookup_insert_ne by done. by apply Hb.
Qed.

Lemma stays_steady_bind {A B : Type} s (r : Result A) (k : A → State → Result B) :
  stays_steady s r → (∀ a s', steady s s' → stays_steady s' (k a s')) →
  stays_steady s (bind r k).
Proof.
  destruct r as [a s'|w s'| | |]; simpl; intros Hr Hk; try done.
  specialize (Hk a s' Hr). destruct (k a s'); simpl in *; eauto using steady_trans.
Qed.

Lemma stays_steady_from s0 s {A : Type} (r : Result A) :
  steady s0 s → stays_steady s r → stays_steady s0 r.
Proof. destruct r; simpl; eauto using steady_trans. Qed.

Section Steady.

Variable E : Env.
Variable rec : Api.
Hypothesis Hrec : api_steady rec.

Lemma Require_ref_with_steady T s : stays_steady s (Require_ref_with E rec T s).
Proof.
  apply stays_steady_bind; [apply Hrec |]. intros [a|] s' _; simpl; apply steady_refl.
Qed.

Lemma Provide_default_with_steady T scope s :
  stays_steady s (Provide_default_with E rec T scope s).
Proof. unfold Provide_default_with. case_match; [apply Hrec | done]. Qed.

Lemma BuildParameter_steady p s : stays_steady s (BuildParameter E rec p s).
Proof.
  destruct p as [U|U]; simpl.
  - apply stays_steady_bind; [apply Hrec |]. intros; simpl; apply steady_refl.
  - apply stays_steady_bind; [apply Require_ref_with_steady |].
    intros; simpl; apply steady_refl.
Qed.

Lemma eval_arguments_steady Tuple order :
  ∀ values s, stays_steady s (eval_arguments E rec Tuple order values s).
Proof.
  induction order as [|i order IH]; intros values s; simpl.
  - apply steady_refl.
  - destruct (Tuple !! i) as [p|]; [| apply IH].
    apply stays_steady_bind; [apply BuildParameter_steady |]. intros; apply IH.
Qed.

Lemma As_closure_steady T s : stays_steady s (As_closure E rec T s).
Proof.
  apply stays_steady_bind.
  - apply stays_steady_bind; [apply eval_arguments_steady |].
    intros; simpl; apply steady_refl.
  - intros args s' _. simpl. apply steady_make_unique.
Qed.

Lemma run_steady p : ∀ s, stays_steady s (run E rec p s).
Proof.
  induction p as [|dynamic args|what|U k IH|U k IH|U scope k IH|U builder _ scope k IH];
    intros s; simpl.
  - apply steady_refl.
  - apply steady_make_unique.
  - apply steady_refl.
  - apply stays_steady_bind; [apply Hrec |]. intros; apply IH.
  - apply stays_steady_bind; [apply Require_ref_with_steady |]. intros; apply IH.
  - apply stays_steady_bind; [apply Provide_default_with_steady |]. intros; apply IH.
  - apply stays_steady_bind; [apply Hrec |]. intros; apply IH.
Qed.

Lemma Invoke_steady T b s : stays_steady s (Invoke E rec T b s).
Proof.
  unfold Invoke. apply stays_steady_bind.
  - apply (stays_steady_from _ (record (Invoked T) s)); [apply steady_record |].
    destruct b; [apply As_closure_steady | apply run_steady].
  - intros r s' _. simpl. apply steady_record.
Qed.

Lemma Provide_body_steady T b scope s : stays_steady s (Provide_body E rec T b scope s).
Proof.
  apply stays_steady_bind; [apply Invoke_steady |]. intros r s' _.
  destruct (assign_instance T _ s') as [[] s''| | | |] eqn:Ha; simpl; try done.
  - eapply steady_store. exact Ha.
  - exfalso. revert Ha. unfold assign_instance.
    destruct (m_instances (ctx s') !! T) as [old|]; [| done].
    by destruct (Instance_destroy old (heap s')).
Qed.

Lemma Require_ptr_body_steady T s : stays_steady s (Require_ptr_body E rec T s).
Proof.
  unfold Require_ptr_body.
  destruct (m_instances (ctx s) !! T) as [instance|]; [apply steady_refl |].
  destruct (m_factories (ctx s) !! T) as [factory|].
  - apply stays_steady_bind; [apply Invoke_steady |]. intros r s' _.
    destruct (assign_instance T _ s') as [[] s''| | | |] eqn:Ha; simpl; try done.
    + eapply steady_assign. exact Ha.
    + exfalso. revert Ha. unfold assign_instance.
      destruct (m_instances (ctx s') !! T) as [old|]; [| done].
      by destruct (Instance_destroy old (heap s')).
  - case_match; [| apply steady_refl].
    apply stays_steady_bind; [apply Provide_default_with_steady |]. intros; apply Hrec.
Qed.

End Steady.

Lemma api_steady_fuel E fuel : api_steady (api E fuel).
Proof.
  induction fuel as [|n IH]; split; simpl; try done.
  - intros. by apply Require_ptr_body_steady.
  - intros. by apply Provide_body_steady.
Qed.

Lemma leaves_steady {A : Type} s (r : Result A) s' :
  stays_steady s r → leaves r s' → steady s s'.
Proof. destruct r; simpl; try done; by intros H <-. Qed.

(** X7. The container has no way to unregister: whether a [Require] or a
    [Provide] returns or throws, every type that had an instance still has
    one, and every type that had a factory still has one. So a type that
    resolved from the cache before the call resolves from the cache after
    it, without any builder being run. *)
Theorem entries_are_never_removed (E : Env) (fuel : nat) (T : TypeKey) (s s' : State) :
  (leaves (Require_ptr E fuel T s) s' ∨
   ∃ builder scope, leaves (Provide E fuel T builder scope s) s') →
  retains s s' ∧
  ∀ U, is_Some (m_instances (ctx s) !! U) →
    ∃ instance, m_instances (ctx s') !! U = Some instance ∧
      ∀ fuel', Require_ptr E (S fuel') U s' = Ok (Handle instance) s'.
Proof.
  intros H.
  assert (steady s s') as [Hkeep _].
  { destruct (api_steady_fuel E fuel) as [Hr Hp].
    destruct H as [H|(builder & scope & H)].
    - exact (leaves_steady s _ s' (Hr T s) H).
    - exact (leaves_steady s _ s' (Hp T builder scope s) H). }
  split; [exact Hkeep |]. intros U HU.
  destruct (proj1 Hkeep U HU) as [instance Hi]. exists instance.
  split; [exact Hi |]. intros fuel'. by apply Require_ptr_cached.
Qed.

Lemma entries_are_never_removed_witness :
  let s := Example.parent in
  let s' := Example.after (Provide Example.from_left 1 Example.Shape Example.no_shape Local s) in
  leaves (Provide Example.from_left 1 Example.Shape Example.no_shape Local s) s' ∧
  is_Some (m_instances (ctx s) !! Example.Logger) ∧
  ∃ instance, m_instances (ctx s') !! Example.Logger = Some instance ∧
    Require_ptr Example.from_left 1 Example.Logger s' = Ok (Handle instance) s'.
Proof.
  intros s s'.
  assert (leaves (Provide Example.from_left 1 Example.Shape Example.no_shape Local s) s')
    as Hl by (vm_compute; reflexivity).
  assert (is_Some (m_instances (ctx s) !! Example.Logger)) as HU by (vm_compute; eauto).
  split; [exact Hl |]. split; [exact HU |].
  assert (leaves (Require_ptr Example.from_left 1 Example.Shape s) s' ∨
          ∃ builder scope,
            leaves (Provide Example.from_left 1 Example.Shape builder scope s) s') as Hcall
    by (right; exists Example.no_shape, Local; exact Hl).
  destruct (entries_are_never_removed Example.from_left 1 Example.Shape s s' Hcall)
    as [_ H].
  destruct (H Example.Logger HU) as (instance & Hi & Hr).
  exists instance. split; [exact Hi | exact (Hr 0)].
Defined.

(** X8. A factory registered as [Singleton] always has its instance beside
    it: this holds in the empty context and in every scope [CreateScope]
    makes, and [Require] and [Provide] keep it, whether they return or
    throw. So the branch of [Require] that calls a registered builder and
    caches the result as [Local] only ever meets builders registered as
    [Local]. *)
Theorem Singleton_factories_are_built :
  singletons_built initial ∧
  (∀ this h tr, singletons_built {| ctx := CreateScope this; heap := h; trace := tr |}) ∧
  (∀ E fuel T s s',
     singletons_built s → leaves (Require_ptr E fuel T s) s' → singletons_built s') ∧
  (∀ E fuel T builder scope s s',
     singletons_built s → leaves (Provide E fuel T builder scope s) s' →
     singletons_built s') ∧
  (∀ s T factory,
     singletons_built s →
     m_instances (ctx s) !! T = None → m_factories (ctx s) !! T = Some factory →
     Factory_Scope factory = Local).
Proof.
  split; [| split; [| split; [| split]]].
  - intros T f Hf. simpl in Hf. by rewrite lookup_empty in Hf.
  - intros this h tr T f Hf Hs. exfalso. simpl in Hf.
    rewrite lookup_clone_entries in Hf.
    destruct (m_factories this !! T) as [[b scope]|]; [| done]. simpl in Hf.
    unfold Factory_Clone in Hf. simpl in Hf. destruct scope; [| done].
    injection Hf as <-. done.
  - intros E fuel T s s' Hs Hl.
    exact (proj2 (leaves_steady s _ s' (proj1 (api_steady_fuel E fuel) T s) Hl) Hs).
  - intros E fuel T builder scope s s' Hs Hl.
    exact (proj2 (leaves_steady s _ s' (proj2 (api_steady_fuel E fuel) T builder scope s) Hl)
             Hs).
  - intros s T factory Hs Hi Hf. destruct (Factory_Scope factory) eqn:Hscope; [done |].
    destruct (Hs T factory Hf Hscope) as [i Hi']. by rewrite Hi in Hi'.
Qed.

(** ** Scopes and destruction *)

(** X9. A scope holds [Singleton] instances and [Local] factories only, and
    creating a scope from a scope just created copies all of it: the
    grandchild has exactly the entries of the child. *)
Theorem CreateScope_idempotent (this : Context) :
  CreateScope (CreateScope this) = CreateScope this ∧
  (∀ T instance, m_instances (CreateScope this) !! T = Some instance →
     Instance_Scope instance = Singleton ∧ m_instances this !! T = Some instance) ∧
  (∀ T factory, m_factories (CreateScope this) !! T = Some factory →
     Factory_Scope factory = Local ∧ m_factories this !! T = Some factory).
Proof.
  assert (∀ T instance, m_instances (CreateScope this) !! T = Some instance →
     Instance_Scope instance = Singleton ∧ m_instances this !! T = Some instance) as HI.
  { intros T instance. simpl. rewrite lookup_clone_entries.
    destruct (m_instances this !! T) as [[r scope]|]; [| done]. simpl.
    unfold Instance_Clone. simpl. destruct scope; [done |]. by intros [= <-]. }
  assert (∀ T factory, m_factories (CreateScope this) !! T = Some factory →
     Factory_Scope factory = Local ∧ m_factories this !! T = Some factory) as HF.
  { intros T factory. simpl. rewrite lookup_clone_entries.
    destruct (m_factories this !! T) as [[b scope]|]; [| done]. simpl.
    unfold Factory_Clone. simpl. destruct scope; [| done]. by intros [= <-]. }
  split; [| done].
  unfold CreateScope at 1. destruct (CreateScope this) as [instances factories] eqn:Hc.
  simpl in *. f_equal; apply map_eq; intros T; rewrite lookup_clone_entries.
  - destruct (instances !! T) as [instance|] eqn:Hi; [| done].
    destruct (HI T instance Hi) as [Hs _]. destruct instance as [r scope].
    simpl in *. unfold Instance_Clone. simpl. by rewrite Hs.
  - destruct (factories !! T) as [factory|] eqn:Hf; [| done].
    destruct (HF T factory Hf) as [Hs _]. destruct factory as [b scope].
    simpl in *. unfold Factory_Clone. simpl. by rewrite Hs.
Qed.

(** The destructor run over part of the instances of a context in good
    order: it deletes what those instances hold, and nothing else. *)
Lemma destroy_some (s : State) (part : gmap TypeKey Instance) :
  consistent s → part ⊆ m_instances (ctx s) →
  ∃ h', map_fold (λ _ instance acc, acc ≫= Instance_destroy instance)
          (Some (heap s)) part = Some h' ∧
    next h' = next (heap s) ∧
    ∀ a, ((∃ T i, part !! T = Some i ∧ Handle i = Some a) → objects h' !! a = None) ∧
         (¬ (∃ T i, part !! T = Some i ∧ Handle i = Some a) →
          objects h' !! a = objects (heap s) !! a).
Proof.
  intros Hs. revert part.
  apply (map_fold_weak_ind (λ acc part, part ⊆ m_instances (ctx s) →
    ∃ h', acc = Some h' ∧ next h' = next (heap s) ∧
      ∀ a, ((∃ T i, part !! T = Some i ∧ Handle i = Some a) → objects h' !! a = None) ∧
           (¬ (∃ T i, part !! T = Some i ∧ Handle i = Some a) →
            objects h' !! a = objects (heap s) !! a))).
  - intros _. exists (heap s). split; [done |]. split; [done |]. intros a. split; [| done].
    intros (T & i & Hi & _). by rewrite lookup_empty in Hi.
  - intros T x part acc Hfresh IH Hsub.
    assert (m_instances (ctx s) !! T = Some x) as Hx
      by (apply (lookup_weaken _ _ _ _ (lookup_insert_eq part T x) Hsub)).
    destruct IH as (h' & -> & Hnext & Hobj).
    { etrans; [| exact Hsub]. by apply insert_subseteq. }
    simpl. unfold Instance_destroy. destruct (Handle x) as [b|] eqn:Hb.
    + assert (¬ (∃ U i, part !! U = Some i ∧ Handle i = Some b)) as Hunheld.
      { intros (U & i & Hi & Hib).
        assert (m_instances (ctx s) !! U = Some i) as Hfull.
        { apply (lookup_weaken (<[T:=x]> part) _ U i); [| exact Hsub].
          rewrite lookup_insert_ne; [done |]. intros <-. by rewrite Hfresh in Hi. }
        assert (T = U) as <- by exact (held_once s Hs T U x i b Hx Hfull Hb Hib).
        by rewrite Hfresh in Hi. }
      destruct (held_alive s Hs b) as [o Ho]; [by exists T, x |].
      unfold delete. rewrite (proj2 (Hobj b) Hunheld), Ho.
      eexists. split; [reflexivity |]. split; [done |]. intros a. simpl. split.
      * intros (U & i & Hi & Hia). destruct (decide (b = a)) as [<-|Hne].
        -- by rewrite lookup_delete_eq.
        -- rewrite lookup_delete_ne by done. apply Hobj. exists U, i. split; [| done].
           destruct (decide (T = U)) as [<-|HTU].
           ++ rewrite lookup_insert_eq in Hi. injection Hi as <-. congruence.
           ++ by rewrite lookup_insert_ne in Hi.
      * intros Hnot. assert (b ≠ a) as Hne.
        { intros <-. apply Hnot. exists T, x. by rewrite lookup_insert_eq. }
        rewrite lookup_delete_ne by done. apply Hobj.
        intros (U & i & Hi & Hia). apply Hnot. exists U, i. split; [| done].
        rewrite lookup_insert_ne; [done |]. intros <-. by rewrite Hfresh in Hi.
    + exists h'. split; [done |]. split; [done |]. intros a. split.
      * intros (U & i & Hi & Hia). apply Hobj. exists U, i. split; [| done].
        destruct (decide (T = U)) as [<-|HTU].
        -- rewrite lookup_insert_eq in Hi. injection Hi as <-. congruence.
        -- by rewrite lookup_insert_ne in Hi.
      * intros Hnot. apply Hobj. intros (U & i & Hi & Hia). apply Hnot.
        exists U, i. split; [| done].
        rewrite lookup_insert_ne; [done |]. intros <-. by rewrite Hfresh in Hi.
Qed.

(** X10. Destroying a context in good order is defined: it deletes every
    object an instance of the context holds, and leaves every other object
    of the store as it was. *)
Theorem destroy_releases_what_is_held (s : State) :
  consistent s →
  ∃ h', destroy (ctx s) (heap s) = Some h' ∧
    ∀ a, (held a s → objects h' !! a = None) ∧
         (¬ held a s → objects h' !! a = objects (heap s) !! a).
Proof.
  intros Hs. destruct (destroy_some s (m_instances (ctx s)) Hs) as (h' & Hd & _ & Hobj);
    [done |].
  exists h'. split; [exact Hd |]. exact Hobj.
Qed.

Lemma destroy_releases_what_is_held_witness :
  consistent Example.with_logger ∧
  ∃ h', destroy (ctx Example.with_logger) (heap Example.with_logger) = Some h' ∧
        objects h' !! 0 = None.
Proof.
  assert (consistent Example.with_logger) as Hs
    by exact (proj2 (api_safe_fuel Example.from_left 1) Example.Logger As Local initial
                consistent_initial).
  split; [exact Hs |].
  destruct (destroy_releases_what_is_held Example.with_logger Hs) as (h' & Hd & Hobj).
  exists h'. split; [exact Hd |]. apply Hobj.
  exists Example.Logger, {| Handle := Some 0; Instance_Scope := Local |}.
  split; reflexivity.
Defined.

(** X11. A scope that inherited no singleton object owns nothing: when every
    [Singleton] instance of the parent holds a null pointer, destroying the
    child leaves the store as it is. *)
Theorem scope_without_singletons_owns_nothing (this : Context) (h : Heap) :
  (∀ T instance, m_instances this !! T = Some instance →
     Instance_Scope instance = Singleton → Handle instance = None) →
  destroy (CreateScope this) h = Some h.
Proof.
  intros Hnone.
  assert (∀ T instance, m_instances (CreateScope this) !! T = Some instance →
            Handle instance = None) as Hchild.
  { intros T instance. simpl. rewrite lookup_clone_entries.
    destruct (m_instances this !! T) as [[r scope]|] eqn:Hi; [| done]. simpl.
    unfold Instance_Clone. simpl. destruct scope; [done |]. intros [= <-].
    exact (Hnone T _ Hi eq_refl). }
  unfold destroy. revert Hchild.
  apply (map_fold_weak_ind (λ acc part,
    (∀ T instance, part !! T = Some instance → Handle instance = None) → acc = Some h)).
  - done.
  - intros T x part acc Hfresh IH Hall. rewrite IH.
    + simpl. unfold Instance_destroy. by rewrite (Hall T x (lookup_insert_eq part T x)).
    + intros U i Hi. apply (Hall U). rewrite lookup_insert_ne; [done |].
      intros <-. by rewrite Hfresh in Hi.
Qed.

Lemma scope_without_singletons_owns_nothing_witness :
  (∀ T instance, m_instances (ctx Example.with_logger) !! T = Some instance →
     Instance_Scope instance = Singleton → Handle instance = None) ∧
  destroy (CreateScope (ctx Example.with_logger)) (heap Example.with_logger) =
    Some (heap Example.with_logger).
Proof.
  assert (∀ T instance, m_instances (ctx Example.with_logger) !! T = Some instance →
     Instance_Scope instance = Singleton → Handle instance = None) as Hnone.
  { intros T instance Hi Hs.
    destruct (decide (T = Example.Logger)) as [->|Hne].
    - vm_compute in Hi. injection Hi as <-. discriminate Hs.
    - exfalso. revert Hi. change (m_instances (ctx Example.with_logger))
        with (<[Example.Logger := {| Handle := Some 0; Instance_Scope := Local |}]>
                (∅ : gmap TypeKey Instance)).
      by rewrite lookup_insert_ne, lookup_empty. }
  split; [exact Hnone |].
  exact (scope_without_singletons_owns_nothing _ _ Hnone).
Defined.

(** ** Wiring *)

Lemma answers_at_once_Require E s U h fuel :
  answers_at_once E s U = Some h → Require_ptr E (S fuel) U s = Ok h s.
Proof.
  unfold answers_at_once, Require_ptr. simpl. unfold Require_ptr_body.
  destruct (m_instances (ctx s) !! U) as [instance|]; [by intros [= <-] |].
  destruct (m_factories (ctx s) !! U) as [factory|]; [done |].
  destruct (priv.Constructible (info E U)); [done | by intros [= <-]].
Qed.

Lemma BuildParameter_settled E s p v fuel :
  settled E s p = Some v → BuildParameter E (api E (S fuel)) p s = Ok v s.
Proof.
  destruct p as [U|U]; cbn [settled BuildParameter].
  - destruct (answers_at_once E s U) as [h|] eqn:Hh; [| done]. intros [= <-].
    pose proof (answers_at_once_Require E s U h fuel Hh) as Hr.
    unfold Require_ptr in Hr. by rewrite Hr.
  - destruct (answers_at_once E s U) as [[a|]|] eqn:Hh; try done. intros [= <-].
    pose proof (answers_at_once_Require E s U (Some a) fuel Hh) as Hr.
    unfold Require_ptr in Hr. unfold Require_ref_with. by rewrite Hr.
Qed.

Section Settled.

Variable E : Env.
Variable fuel : nat.
Variable s : State.
Variable Tuple : list Param.

Lemma eval_arguments_settled (args : list Arg) (order : list nat) :
  (∀ i, i ∈ order →
     ∃ p v, Tuple !! i = Some p ∧ settled E s p = Some v ∧ args !! i = Some v) →
  ∀ values0, ∃ values,
    eval_arguments E (api E (S fuel)) Tuple order values0 s = Ok (values0 ++ values) s ∧
    values.*1 = order ∧ ∀ i v, (i, v) ∈ values → args !! i = Some v.
Proof.
  induction order as [|i order IH]; intros Hall values0.
  - exists []. simpl. rewrite app_nil_r. split; [done |]. split; [done |].
    intros i v Hin. by apply elem_of_nil in Hin.
  - destruct (Hall i) as (p & v & Hp & Hv & Ha); [by left |].
    destruct (IH (λ j Hj, Hall j (list_elem_of_further _ _ _ Hj)) (values0 ++ [(i, v)]))
      as (values & He & Hpos & Hval).
    exists ((i, v) :: values). cbn [eval_arguments].
    rewrite Hp, (BuildParameter_settled E s p v fuel Hv). cbn [bind].
    rewrite He, <- app_assoc. split; [done |]. split; [by rewrite fmap_cons, Hpos |].
    intros j w Hin. apply elem_of_cons in Hin as [[= -> ->]|Hin]; [done | by apply Hval].
Qed.

(** When every parameter resolves at once, so does the tuple, whatever the
    order of evaluation, and the context is left as it was. *)
Lemma BuildParameters_settled (args : list Arg) :
  arg_order E (length Tuple) ≡ₚ seq 0 (length Tuple) →
  mapM (settled E s) Tuple = Some args →
  BuildParameters E (api E (S fuel)) Tuple s = Ok args s.
Proof.
  intros Hperm Hargs. apply mapM_Some in Hargs.
  pose proof (Forall2_length _ _ _ Hargs) as Hlen.
  destruct (eval_arguments_settled args (arg_order E (length Tuple)))
    with (values0 := @nil (nat * Arg)) as (values & He & Hpos & Hval).
  { intros i Hi. rewrite Hperm in Hi. apply elem_of_seq in Hi.
    destruct (lookup_lt_is_Some_2 Tuple i) as [p Hp]; [lia |].
    destruct (Forall2_lookup_l _ _ _ _ _ Hargs Hp) as (v & Ha & Hv). eauto. }
  unfold BuildParameters. rewrite He. simpl. f_equal. symmetry.
  apply (tuple_of_values _ _ values Hperm Hpos). split; [by rewrite Hlen |]. exact Hval.
Qed.

(** One parameter, a reference to a type that answers null, stops the
    evaluation of the tuple, at whatever position the order takes it. *)
Lemma eval_arguments_aborts (j : nat) (U : TypeKey) (order : list nat) :
  Tuple !! j = Some (PRef U) →
  answers_at_once E s U = Some None →
  (∀ i p, i ≠ j → Tuple !! i = Some p → is_Some (settled E s p)) →
  j ∈ order →
  ∀ values0,
    eval_arguments E (api E (S fuel)) Tuple order values0 s =
      Throw (type_name E U ++ not_provided_message)%string s.
Proof.
  intros Hj HU Hrest. induction order as [|i order IH]; intros Hin values0.
  - by apply elem_of_nil in Hin.
  - cbn [eval_arguments]. destruct (decide (i = j)) as [->|Hne].
    + rewrite Hj. cbn [BuildParameter]. unfold Require_ref_with.
      pose proof (answers_at_once_Require E s U None fuel HU) as Hr.
      unfold Require_ptr in Hr. by rewrite Hr.
    + apply elem_of_cons in Hin as [->|Hin]; [done |].
      destruct (Tuple !! i) as [p|] eqn:Hp; [| by apply IH].
      destruct (Hrest i p Hne Hp) as [v Hv].
      rewrite (BuildParameter_settled E s p v fuel Hv). cbn [bind]. by apply IH.
Qed.

End Settled.

(** X12. Wiring from what is at hand. Let [T] be constructible and neither
    cached nor registered, and let every parameter of its deduced signature
    resolve at once: its type is cached, or it is a pointer to a type that
    cannot be resolved and is passed as null. Then [Require<T*>()] returns a
    new object built from exactly those values in declared order, whatever
    the order of evaluation; it runs no builder but [As<T>()], registers
    [T] with it and caches the object, both [Local], and leaves every other
    entry as it was. *)
Theorem wiring_from_settled_parameters (E : Env) (fuel : nat) (T : TypeKey)
    (s : State) (args : list Arg) :
  let Tuple := priv.ConstructorDescriptor (info E T) in
  m_instances (ctx s) !! T = None →
  m_factories (ctx s) !! T = None →
  priv.Constructible (info E T) = true →
  arg_order E (length Tuple) ≡ₚ seq 0 (length Tuple) →
  mapM (settled E s) Tuple = Some args →
  ∃ s', Require_ptr E (S (S (S fuel))) T s = Ok (Some (next (heap s))) s' ∧
    objects (heap s') =
      <[next (heap s) := {| obj_type := T; obj_args := args |}]> (objects (heap s)) ∧
    m_instances (ctx s') =
      <[T := {| Handle := Some (next (heap s)); Instance_Scope := Local |}]>
        (m_instances (ctx s)) ∧
    m_factories (ctx s') =
      <[T := {| Factory_Builder := As; Factory_Scope := Local |}]> (m_factories (ctx s)) ∧
    trace s' = trace s ++ [Invoked T; Returned T (Some (next (heap s)))].
Proof.
  intros Tuple Hi Hf HC Hperm Hargs.
  assert (BuildParameters E (api E (S fuel)) Tuple (record (Invoked T) s) =
          Ok args (record (Invoked T) s)) as Hb
    by (by apply BuildParameters_settled).
  set (a := next (heap s)).
  set (s0 := record (Returned T (Some a))
               (make_unique {| obj_type := T; obj_args := args |} (record (Invoked T) s)).2).
  set (s1 := set_factory T {| Factory_Builder := As; Factory_Scope := Local |}
               (set_instance T {| Handle := Some a; Instance_Scope := Local |} s0)).
  assert (Invoke E (api E (S fuel)) T As s = Ok (Some a) s0) as Hinv.
  { unfold Invoke, As_closure. fold Tuple. by rewrite Hb. }
  assert (Provide_body E (api E (S fuel)) T As Local s = Ok tt s1) as Hp.
  { unfold Provide_body. rewrite Hinv. cbn [bind]. unfold assign_instance.
    change (m_instances (ctx s0)) with (m_instances (ctx s)). by rewrite Hi. }
  assert (Require_ptr_body E (api E (S fuel)) T s1 = Ok (Some a) s1) as Hretry.
  { unfold Require_ptr_body. simpl. by rewrite lookup_insert_eq. }
  exists s1. split; [| split; [done | split; [done | split; [done |]]]].
  - unfold Require_ptr.
    change (require_ptr (api E (S (S (S fuel)))) T s) with
      (Require_ptr_body E (api E (S (S fuel))) T s).
    unfold Require_ptr_body at 1. rewrite Hi, Hf, HC.
    unfold Provide_default_with. rewrite HC.
    change (provide (api E (S (S fuel))) T As Local s) with
      (Provide_body E (api E (S fuel)) T As Local s).
    rewrite Hp. cbn [bind]. exact Hretry.
  - simpl. by rewrite <- app_assoc.
Qed.

Lemma wiring_from_settled_parameters_witness :
  let E := Example.from_right in
  let s := Example.after (Require_ptr E 9 Example.Config initial) in
  m_instances (ctx s) !! Example.Service = None ∧
  m_factories (ctx s) !! Example.Service = None ∧
  mapM (settled E s) (priv.ConstructorDescriptor (info E Example.Service)) =
    Some [ARef 0; ARef 1] ∧
  ∃ s', Require_ptr E 3 Example.Service s = Ok (Some 2) s' ∧
        objects (heap s') !! 2 =
          Some {| obj_type := Example.Service; obj_args := [ARef 0; ARef 1] |}.
Proof.
  intros E s.
  assert (arg_order E (length (priv.ConstructorDescriptor (info E Example.Service))) ≡ₚ
          seq 0 (length (priv.ConstructorDescriptor (info E Example.Service)))) as Hperm
    by (change ([1; 0] ≡ₚ [0; 1]); apply Permutation_swap).
  split; [reflexivity |]. split; [reflexivity |]. split; [reflexivity |].
  destruct (wiring_from_settled_parameters E 0 Example.Service s [ARef 0; ARef 1]
              eq_refl eq_refl eq_refl Hperm eq_refl) as (s' & Hr & Ho & _).
  exists s'. split; [exact Hr |]. rewrite Ho. apply lookup_insert_eq.
Defined.

(** [Provide<T>()] with one parameter that is a reference to a type that
    answers null. *)
Lemma unresolvable_reference_local (E : Env) (fuel : nat) (T U : TypeKey)
    (scope : Scope) (s : State) (j : nat) :
  priv.Constructible (info E T) = true →
  arg_order E (length (priv.ConstructorDescriptor (info E T))) ≡ₚ
    seq 0 (length (priv.ConstructorDescriptor (info E T))) →
  priv.ConstructorDescriptor (info E T) !! j = Some (PRef U) →
  answers_at_once E s U = Some None →
  (∀ i p, i ≠ j → priv.ConstructorDescriptor (info E T) !! i = Some p →
          is_Some (settled E s p)) →
  Provide_default E (S (S fuel)) T scope s =
    Throw (type_name E U ++ not_provided_message)%string (record (Invoked T) s).
Proof.
  intros HC Hperm Hj HU Hrest.
  assert (j ∈ arg_order E (length (priv.ConstructorDescriptor (info E T)))) as Hin.
  { rewrite Hperm. apply elem_of_seq. apply lookup_lt_Some in Hj. lia. }
  unfold Provide_default, Provide_default_with. rewrite HC.
  change (provide (api E (S (S fuel))) T As scope s) with
    (Provide_body E (api E (S fuel)) T As scope s).
  unfold Provide_body, Invoke, As_closure, BuildParameters.
  by rewrite (eval_arguments_aborts E fuel (record (Invoked T) s) _ j U _ Hj HU Hrest Hin []).
Qed.

(** X13. One unresolvable reference stops the construction. Let [T] be
    constructible, let one parameter of its deduced signature be a reference
    to a type that answers null (cached as null, or neither cached, nor
    registered, nor constructible), and let every other parameter resolve at
    once. Then [Provide<T>()] throws the error that names that type,
    whatever the order of evaluation, and registers nothing; and so does
    [Require<T*>()] when [T] is neither cached nor registered. *)
Theorem unresolvable_reference_stops_construction (E : Env) (fuel : nat) (T U : TypeKey)
    (scope : Scope) (s : State) (j : nat) :
  let Tuple := priv.ConstructorDescriptor (info E T) in
  priv.Constructible (info E T) = true →
  arg_order E (length Tuple) ≡ₚ seq 0 (length Tuple) →
  Tuple !! j = Some (PRef U) →
  answers_at_once E s U = Some None →
  (∀ i p, i ≠ j → Tuple !! i = Some p → is_Some (settled E s p)) →
  Provide_default E (S (S fuel)) T scope s =
    Throw (type_name E U ++ not_provided_message)%string (record (Invoked T) s) ∧
  (m_instances (ctx s) !! T = None → m_factories (ctx s) !! T = None →
   Require_ptr E (S (S (S fuel))) T s =
     Throw (type_name E U ++ not_provided_message)%string (record (Invoked T) s)).
Proof.
  intros Tuple HC Hperm Hj HU Hrest.
  assert (Provide_default E (S (S fuel)) T scope s =
    Throw (type_name E U ++ not_provided_message)%string (record (Invoked T) s)) as Hp
    by exact (unresolvable_reference_local E fuel T U scope s j HC Hperm Hj HU Hrest).
  split; [exact Hp |]. intros Hi Hf.
  unfold Require_ptr.
  change (require_ptr (api E (S (S (S fuel)))) T s) with
    (Require_ptr_body E (api E (S (S fuel))) T s).
  unfold Require_ptr_body at 1. rewrite Hi, Hf, HC.
  pose proof (unresolvable_reference_local E fuel T U Local s j HC Hperm Hj HU Hrest) as Hl.
  fold (Provide_default E (S (S fuel)) T Local s). by rewrite Hl.
Qed.

Lemma unresolvable_reference_stops_construction_witness :
  let E := Example.from_left in
  priv.Constructible (info E Example.Client) = true ∧
  priv.ConstructorDescriptor (info E Example.Client) !! 0 = Some (PRef Example.Either) ∧
  answers_at_once E initial Example.Either = Some None ∧
  Provide_default E 2 Example.Client Singleton initial =
    Throw "Either is not constructible and not provided within the current context."
      (record (Invoked Example.Client) initial).
Proof.
  intros E. split; [reflexivity |]. split; [reflexivity |]. split; [reflexivity |].
  refine (proj1 (unresolvable_reference_stops_construction E 0 Example.Client Example.Either
                   Singleton initial 0 eq_refl _ eq_refl eq_refl _)).
  - change ([0] ≡ₚ [0]). reflexivity.
  - intros i p Hne Hp. destruct i as [|i]; [done |]. discriminate Hp.
Defined.

(** A singleton of the parent answers at once in the child, with the
    parent's handle. *)
Lemma settled_in_child E this h tr p v :
  settled E {| ctx := this; heap := h; trace := tr |} p = Some v →
  (∃ instance, m_instances this !! param_type p = Some instance ∧
               Instance_Scope instance = Singleton) →
  settled E {| ctx := CreateScope this; heap := h; trace := tr |} p = Some v.
Proof.
  intros Hv (instance & Hi & Hs).
  assert (∀ U, m_instances this !! U = Some instance →
            answers_at_once E {| ctx := CreateScope this; heap := h; trace := tr |} U =
            answers_at_once E {| ctx := this; heap := h; trace := tr |} U) as Heq.
  { intros U HU. unfold answers_at_once. simpl.
    rewrite lookup_clone_entries, HU. destruct instance as [r scope].
    simpl in *. unfold Instance_Clone. simpl. by rewrite Hs. }
  destruct p as [U|U]; simpl in *; by rewrite (Heq U Hi).
Qed.

(** X14. Wiring across scopes. Let the parent have [T] registered as [Local]
    with the closure [As<T>()], and let every parameter of the deduced
    signature of [T] be cached in the parent as a [Singleton]. Then
    [Require<T*>()] in a scope created from the parent builds a new [T]
    from the parent's singleton handles, in declared order, running no
    builder but the copied one, and caches it in the child as [Local]. *)
Theorem scoped_wiring_uses_parent_singletons (E : Env) (fuel : nat) (T : TypeKey)
    (this : Context) (h : Heap) (tr : list Event) (factory : Factory) (args : list Arg) :
  let Tuple := priv.ConstructorDescriptor (info E T) in
  let parent := {| ctx := this; heap := h; trace := tr |} in
  let child := {| ctx := CreateScope this; heap := h; trace := tr |} in
  m_factories this !! T = Some factory →
  Factory_Builder factory = As → Factory_Scope factory = Local →
  (∀ instance, m_instances this !! T = Some instance → Instance_Scope instance = Local) →
  arg_order E (length Tuple) ≡ₚ seq 0 (length Tuple) →
  mapM (settled E parent) Tuple = Some args →
  (∀ p, p ∈ Tuple → ∃ instance, m_instances this !! param_type p = Some instance ∧
                                 Instance_Scope instance = Singleton) →
  ∃ s', Require_ptr E (S (S fuel)) T child = Ok (Some (next h)) s' ∧
    objects (heap s') = <[next h := {| obj_type := T; obj_args := args |}]> (objects h) ∧
    m_instances (ctx s') =
      <[T := {| Handle := Some (next h); Instance_Scope := Local |}]>
        (m_instances (CreateScope this)) ∧
    m_factories (ctx s') = m_factories (CreateScope this) ∧
    trace s' = tr ++ [Invoked T; Returned T (Some (next h))].
Proof.
  intros Tuple parent child Hf Hbuilder Hscope Hlocal Hperm Hargs Hsingle.
  assert (m_instances (ctx child) !! T = None) as Hi.
  { simpl. rewrite lookup_clone_entries.
    destruct (m_instances this !! T) as [instance|] eqn:Hinst; [| done]. simpl.
    unfold Instance_Clone. by rewrite (Hlocal instance eq_refl). }
  assert (m_factories (ctx child) !! T = Some factory) as Hf'.
  { simpl. rewrite lookup_clone_entries, Hf. clear Hf. destruct factory as [b scope].
    simpl in *. unfold Factory_Clone. simpl. by rewrite Hscope. }
  assert (mapM (settled E (record (Invoked T) child)) Tuple = Some args) as Hargs'.
  { apply mapM_Some. apply mapM_Some in Hargs. clear Hperm.
    induction Hargs as [|p v ps vs Hv _ IH]; constructor.
    - apply (settled_in_child E this h tr p v Hv), Hsingle. by left.
    - apply IH. intros q Hq. apply Hsingle. by right. }
  assert (BuildParameters E (api E (S fuel)) Tuple (record (Invoked T) child) =
          Ok args (record (Invoked T) child)) as Hb
    by (by apply BuildParameters_settled).
  set (s0 := record (Returned T (Some (next h)))
               (make_unique {| obj_type := T; obj_args := args |}
                  (record (Invoked T) child)).2).
  assert (Invoke E (api E (S fuel)) T As child = Ok (Some (next h)) s0) as Hinv.
  { unfold Invoke, As_closure. fold Tuple. by rewrite Hb. }
  exists (set_instance T {| Handle := Some (next h); Instance_Scope := Local |} s0).
  split; [| split; [done | split; [done | split; [done |]]]].
  - unfold Require_ptr.
    change (require_ptr (api E (S (S fuel))) T child) with
      (Require_ptr_body E (api E (S fuel)) T child).
    unfold Require_ptr_body. rewrite Hi, Hf', Hbuilder, Hinv. cbn [bind].
    unfold assign_instance. change (m_instances (ctx s0)) with (m_instances (ctx child)).
    by rewrite Hi.
  - simpl. by rewrite <- app_assoc.
Qed.

Lemma scoped_wiring_uses_parent_singletons_witness :
  let E := Example.from_left in
  let parent :=
    Example.after (Provide_default E 2 Example.Config Local
      (Example.after (Provide_default E 1 Example.Logger Singleton initial))) in
  m_instances (ctx parent) !! Example.Logger =
    Some {| Handle := Some 0; Instance_Scope := Singleton |} ∧
  m_factories (ctx parent) !! Example.Config =
    Some {| Factory_Builder := As; Factory_Scope := Local |} ∧
  mapM (settled E parent) (priv.ConstructorDescriptor (info E Example.Config)) =
    Some [ARef 0] ∧
  ∃ s', Require_ptr E 2 Example.Config (Example.in_child parent) = Ok (Some 2) s' ∧
        objects (heap s') !! 2 =
          Some {| obj_type := Example.Config; obj_args := [ARef 0] |}.
Proof.
  intros E parent.
  split; [reflexivity |]. split; [reflexivity |]. split; [reflexivity |].
  destruct (scoped_wiring_uses_parent_singletons E 0 Example.Config (ctx parent)
              (heap parent) (trace parent)
              {| Factory_Builder := As; Factory_Scope := Local |} [ARef 0])
    as (s' & Hr & Ho & _).
  - reflexivity.
  - reflexivity.
  - reflexivity.
  - intros instance Hi. vm_compute in Hi. by injection Hi as <-.
  - change ([0] ≡ₚ [0]). reflexivity.
  - reflexivity.
  - intros p Hp. change (p ∈ [PRef Example.Logger]) in Hp.
    apply list_elem_of_singleton in Hp as ->.
    exists {| Handle := Some 0; Instance_Scope := Singleton |}. split; reflexivity.
  - exists s'. split; [exact Hr |]. rewrite Ho. apply lookup_insert_eq.
Defined.
